(** * Heston Monte Carlo engine: a shallow embedding of [heston.c]

    The C program prices a European call under the Heston model by Monte
    Carlo simulation.  This development embeds its random source, its two
    path simulators, its batch driver and its percentile accessor, and
    states the properties of the specification over that embedding.

    Conventions.
    - A C [double] is a primitive binary64 [float]; the arithmetic of the
      program ([+], [-], [*], [/], [sqrt], comparisons) is the IEEE 754
      arithmetic of [PrimFloat].  The transcendental functions of [math.h]
      ([exp], [log], [sin], [cos], [erf]) are an interface, [Libm].
    - A C [int] is a [Z]; the one increment that can leave the 32-bit range
      has its wrap-around written out ([wrap_int]).  [unsigned long] is the
      32-bit type of the WebAssembly target the file is compiled for.
    - Global and [static] variables are fields of an explicit state that
      every operation receives and returns.
    - An array is a list indexed by position ([!!], [<[i:=x]>]).
    - [qsort] is a parameter of the driver, with the contract of the C
      standard as hypotheses where a property needs it.
    - Allocation is taken to succeed.  Executions that C leaves undefined
      (a negative step count, a simulation counter past [INT_MAX]) are
      kept out by the side conditions of [reachable]. *)

From Stdlib Require Import ZArith Lia Bool Uint63 Floats Permutation Sorted.
From stdpp Require Import base list.

Local Open Scope Z_scope.

(** ** Machine integers *)

Definition INT_MAX : Z := 2147483647.

(** [int] arithmetic result brought back to the signed 32-bit range. *)
Definition wrap_int (z : Z) : Z := (z + 2 ^ 31) mod 2 ^ 32 - 2 ^ 31.

Definition ULONG_BITS : Z := 32.

(** Conversion to, and arithmetic on, [unsigned long]. *)
Definition wrap_ulong (z : Z) : Z := z mod 2 ^ ULONG_BITS.

(** [(double)i] for an [int] [i]. *)
Definition double_of_int (i : Z) : float :=
  if i <? 0 then (- of_uint63 (Uint63.of_Z (- i)))%float else of_uint63 (Uint63.of_Z i).

(** [(double)n] for an [unsigned long] [n]. *)
Definition double_of_ulong (n : Z) : float := of_uint63 (Uint63.of_Z n).

(** ** Floating point *)

(** [fmax] of [math.h]: a NaN argument is treated as missing, and of two
    zeros of different sign the positive one is returned. *)
Definition fmax (x y : float) : float :=
  if is_nan x then y
  else if is_nan y then x
  else if negb (eqb (get_sign x) (get_sign y)) then (if get_sign x then y else x)
  else if (x <? y)%float then y else x.

(** The functions of [math.h] the program calls and [PrimFloat] lacks. *)
Class Libm := {
  exp : float -> float;
  log : float -> float;
  sin : float -> float;
  cos : float -> float;
  erf : float -> float
}.

Definition M_PI : float := 0x1.921fb54442d18p+1%float.

(** ** Random source *)

(** [rand_seed] is the file-level [static unsigned long]; [has_spare] and
    [spare] are the [static] locals of [normal_random]. *)
Record Rng := {
  rand_seed : Z;
  has_spare : bool;
  spare : float
}.

Definition simple_random (g : Rng) : float * Rng :=
  let seed := Z.land (wrap_ulong (rand_seed g * 1103515245 + 12345)) 0x7fffffff in
  ((double_of_ulong seed / 0x7fffffff)%float,
   {| rand_seed := seed; has_spare := has_spare g; spare := spare g |}).

Definition normal_random `{Libm} (g : Rng) : float * Rng :=
  if has_spare g then
    (spare g, {| rand_seed := rand_seed g; has_spare := false; spare := spare g |})
  else
    let g0 := {| rand_seed := rand_seed g; has_spare := true; spare := spare g |} in
    let (u, g1) := simple_random g0 in
    let (v, g2) := simple_random g1 in
    let mag := sqrt (-2.0 * log u)%float in
    ((mag * sin (2.0 * M_PI * v))%float,
     {| rand_seed := rand_seed g2; has_spare := has_spare g2;
        spare := (mag * cos (2.0 * M_PI * v))%float |}).

(** The assignment [rand_seed = (unsigned long)time(NULL)] of
    [initialize_simulation]; [now] is the value [time] returned. *)
Definition reseed (now : Z) (g : Rng) : Rng :=
  {| rand_seed := wrap_ulong now; has_spare := has_spare g; spare := spare g |}.

(** ** Loops and arrays *)

(** [for (i = start; ...; i++) body], run for [count] iterations. *)
Fixpoint for_loop {A : Type} (body : nat -> A -> A) (i count : nat) (a : A) : A :=
  match count with
  | O => a
  | S k => for_loop body (S i) k (body i a)
  end.

#[global] Instance float_inhabited : Inhabited float := populate 0%float.

(** [malloc(n * sizeof(double))]: the cells hold no meaningful value until
    the program writes them; the model fills them with zeros. *)
Definition malloc_doubles (n : Z) : list float := replicate (Z.to_nat n) 0%float.

(** ** Path simulator *)

Section PathSimulator.
Context `{Libm}.

(** The source of standard normal draws: [normal_random] in the program,
    a fixed sequence of injected values in a test. *)
Context {G : Type} (next_normal : G -> float * G).

(** In what follows [S_] stands for the C variable [S], a name that Rocq
    keeps for the successor of [nat]. *)

Local Open Scope float_scope.

(** The body of the loop of [simulate_single_path], at index [i].  The
    cells read, [v[i-1]] and [S[i-1]], are cells the loop has written
    ([arrays_trajectory] below), so the total lookup [!!!] never falls back
    on its default. *)
Definition single_path_step (r theta kappa xi rho dt : float) (i : nat)
    (st : list float * list float * G) : list float * list float * G :=
  let '(S_, v, g) := st in
  let (Z_S, g1) := next_normal g in
  let (Z_n, g2) := next_normal g1 in
  let Z_v := rho * Z_S + sqrt (1 - rho * rho) * Z_n in
  let v_prev := fmax (v !!! (i - 1)%nat) 0.0 in
  let v := <[i := v !!! (i - 1)%nat + kappa * (theta - v_prev) * dt +
                  Z_v * xi * sqrt (v_prev * dt) +
                  (xi * xi / 4.0) * ((Z_v * Z_v - 1.0) * dt)]> v in
  let S_ := <[i := S_ !!! (i - 1)%nat *
                  exp ((r - v !!! (i - 1)%nat / 2.0) * dt +
                       Z_S * sqrt (fmax (v !!! (i - 1)%nat) 0.0 * dt))]> S_ in
  (S_, v, g2).

(** The arrays [S] and [v] of [simulate_single_path] after [k] iterations
    of its loop. *)
Definition single_path_state (S0 v0 r theta kappa xi rho T : float) (N : Z)
    (k : nat) (g : G) : list float * list float * G :=
  let dt := T / double_of_int N in
  let S_ := malloc_doubles (N + 1) in
  let v := malloc_doubles (N + 1) in
  let S_ := <[0%nat := S0]> S_ in
  let v := <[0%nat := v0]> v in
  for_loop (single_path_step r theta kappa xi rho dt) 1 k (S_, v, g).

(** [simulate_single_path]: the loop runs [N] times, the variance array is
    freed, the price array is returned. *)
Definition simulate_single_path (S0 v0 r theta kappa xi rho T : float) (N : Z)
    (g : G) : list float * G :=
  let '(S_, _, g') := single_path_state S0 v0 r theta kappa xi rho T N (Z.to_nat N) g in
  (S_, g').

(** The body of the loop of [simulate_final_price]. *)
Definition final_price_step (r theta kappa xi rho dt : float)
    (st : float * float * G) : float * float * G :=
  let '(S_, v, g) := st in
  let (Z_S, g1) := next_normal g in
  let (Z_n, g2) := next_normal g1 in
  let Z_v := rho * Z_S + sqrt (1 - rho * rho) * Z_n in
  let v_prev := v in
  let v_clamped := fmax v 0.0 in
  let v := v + kappa * (theta - v_clamped) * dt +
           Z_v * xi * sqrt (v_clamped * dt) +
           (xi * xi / 4.0) * ((Z_v * Z_v - 1.0) * dt) in
  let S_ := S_ * exp ((r - v_prev / 2.0) * dt + Z_S * sqrt (fmax v_prev 0.0 * dt)) in
  (S_, v, g2).

(** The variables of [simulate_final_price] after [k] iterations. *)
Definition final_price_state (S0 v0 r theta kappa xi rho T : float) (N : Z)
    (k : nat) (g : G) : float * float * G :=
  let dt := T / double_of_int N in
  for_loop (fun _ => final_price_step r theta kappa xi rho dt) 1 k (S0, v0, g).

Definition simulate_final_price (S0 v0 r theta kappa xi rho T : float) (N : Z)
    (g : G) : float * G :=
  let '(S_, _, g') := final_price_state S0 v0 r theta kappa xi rho T N (Z.to_nat N) g in
  (S_, g').

(** *** The recurrence of the specification *)

(** The two draws of one step, and the source left after them. *)
Definition step_draws (g : G) : float * float * G :=
  let (Z_S, g1) := next_normal g in
  let (Z_n, g2) := next_normal g1 in
  (Z_S, Z_n, g2).

(** The source as it stands after [k] steps. *)
Fixpoint source_after (k : nat) (g : G) : G :=
  match k with
  | O => g
  | S k' => source_after k' (snd (step_draws g))
  end.

(** [Z_S] and the independent draw of step [i], for [i] from 1. *)
Definition Z_S_at (g : G) (i : nat) : float :=
  fst (fst (step_draws (source_after (i - 1) g))).
Definition Z_indep_at (g : G) (i : nat) : float :=
  snd (fst (step_draws (source_after (i - 1) g))).

(** Correlated shock: [Z_v = rho Z_S + sqrt(1 - rho^2) Z_indep]. *)
Definition correlated_shock (rho Z_S Z_indep : float) : float :=
  rho * Z_S + sqrt (1 - rho * rho) * Z_indep.

(** Milstein update of the variance, as the specification writes it:
    the base term is the stored variance, every other use is clamped.
    Products associate to the left, as in C; the last term is read as
    [(xi^2/4) * ((Z_v^2 - 1) * dt)], one of the groupings the formula of the
    specification allows (they differ by rounding only). *)
Definition milstein_variance (kappa theta xi dt v Z_v : float) : float :=
  let v_prev_clamped := fmax v 0 in
  v + kappa * (theta - v_prev_clamped) * dt +
  Z_v * xi * sqrt (v_prev_clamped * dt) +
  (xi * xi / 4) * ((Z_v * Z_v - 1) * dt).

(** Price update as the specification writes it: the clamped variance in
    the drift and in the diffusion. *)
Definition clamped_price_update (r dt S_ v Z_S : float) : float :=
  let v_prev_clamped := fmax v 0 in
  S_ * exp ((r - v_prev_clamped / 2) * dt + Z_S * sqrt (v_prev_clamped * dt)).

(** Price update with the stored variance in the drift and the clamped
    variance under the square root. *)
Definition price_update (r dt S_ v Z_S : float) : float :=
  S_ * exp ((r - v / 2) * dt + Z_S * sqrt (fmax v 0 * dt)).

End PathSimulator.

(** ** Black-Scholes reference *)

Section BlackScholes.
Context `{Libm}.
Local Open Scope float_scope.

Definition norm_cdf (x : float) : float :=
  0.5 * (1.0 + erf (x / sqrt 2.0)).

Definition black_scholes_call (S0 K r T sigma : float) : float :=
  let d1 := (log (S0 / K) + (r + 0.5 * sigma * sigma) * T) / (sigma * sqrt T) in
  let d2 := d1 - sigma * sqrt T in
  S0 * norm_cdf d1 - K * exp (- r * T) * norm_cdf d2.
End BlackScholes.

(** ** Simulation state *)

Definition MAX_PERCENTILE_PATHS : Z := 1000.
Definition PERCENTILE_TRACKING_LIMIT : Z := 1000.

(** [path] is a pointer: [None] is [NULL], [Some l] points to the array [l]. *)
Record PricePath := {
  path : option (list float);
  final_price : float
}.

Record SimulationState := {
  S0 : float; v0 : float; r : float; theta : float; kappa : float;
  xi : float; rho : float; T : float; K : float;
  N : Z;
  simulation_count : Z;
  tracking_phase : Z;
  all_paths : list PricePath;
  paths_stored : Z;
  min_idx : Z; p25_idx : Z; p50_idx : Z; p75_idx : Z; max_idx : Z;
  total_payoffs : float;
  current_option_price : float;
  black_scholes_price : float
}.

(** The globals of the program: [sim_state], and the random source. *)
Record World := {
  sim_state : SimulationState;
  rng : Rng
}.

(** Static initialisation: every field zero, [all_paths] null. *)
Definition initial_world : World :=
  {| sim_state :=
       {| S0 := 0; v0 := 0; r := 0; theta := 0; kappa := 0; xi := 0; rho := 0;
          T := 0; K := 0; N := 0;
          simulation_count := 0; tracking_phase := 0;
          all_paths := []; paths_stored := 0;
          min_idx := 0; p25_idx := 0; p50_idx := 0; p75_idx := 0; max_idx := 0;
          total_payoffs := 0; current_option_price := 0; black_scholes_price := 0 |};
     rng := {| rand_seed := 0; has_spare := false; spare := 0 |} |}.

Definition compare_paths (a b : PricePath) : Z :=
  if (final_price a <? final_price b)%float then -1
  else if (final_price b <? final_price a)%float then 1
  else 0.

(** What the C standard asks of a comparison function on the elements it is
    given: any two are ordered one way or the other, transitively. *)
Definition consistent_on {A : Type} (cmp : A -> A -> Z) (l : list A) : Prop :=
  (forall a b, a ∈ l -> b ∈ l -> cmp a b <= 0 \/ cmp b a <= 0) /\
  (forall a b c, a ∈ l -> b ∈ l -> c ∈ l -> cmp a b <= 0 -> cmp b c <= 0 -> cmp a c <= 0).

(** The outcome of reading an array cell: its value, or a read outside the
    allocated cells, which C leaves undefined. *)
Inductive read (A : Type) : Type :=
| Value (a : A)
| OutOfBounds.
Arguments Value {A} a.
Arguments OutOfBounds {A}.

Definition array_read {A : Type} (l : list A) (i : Z) : read A :=
  if i <? 0 then OutOfBounds
  else match l !! Z.to_nat i with
       | Some a => Value a
       | None => OutOfBounds
       end.

(** ** Simulation driver *)

Section Driver.
Context `{Libm}.

(** [qsort] of [stdlib.h], on an array of [PricePath]. *)
Variable qsort : list PricePath -> (PricePath -> PricePath -> Z) -> list PricePath.

Definition initialize_simulation (now : Z)
    (S0 v0 r theta kappa xi rho T K : float) (N : Z) (w : World) : World :=
  let s := sim_state w in
  {| sim_state :=
       {| S0 := S0; v0 := v0; r := r; theta := theta; kappa := kappa; xi := xi;
          rho := rho; T := T; K := K; N := N;
          simulation_count := 0;
          tracking_phase := 1;
          all_paths :=
            replicate (Z.to_nat MAX_PERCENTILE_PATHS) {| path := None; final_price := 0 |};
          paths_stored := 0;
          min_idx := min_idx s; p25_idx := p25_idx s; p50_idx := p50_idx s;
          p75_idx := p75_idx s; max_idx := max_idx s;
          total_payoffs := 0.0;
          current_option_price := 0.0;
          black_scholes_price := black_scholes_call S0 K r T (sqrt v0) |};
     rng := reseed now (rng w) |}.

(** [all_paths[paths_stored] = {p, final}; paths_stored++], guarded by the
    capacity test. *)
Definition store_path (p : list float) (s : SimulationState) : SimulationState :=
  if paths_stored s <? MAX_PERCENTILE_PATHS then
    {| S0 := S0 s; v0 := v0 s; r := r s; theta := theta s; kappa := kappa s;
       xi := xi s; rho := rho s; T := T s; K := K s; N := N s;
       simulation_count := simulation_count s;
       tracking_phase := tracking_phase s;
       all_paths :=
         <[Z.to_nat (paths_stored s) :=
             {| path := Some p; final_price := p !!! Z.to_nat (N s) |}]> (all_paths s);
       paths_stored := paths_stored s + 1;
       min_idx := min_idx s; p25_idx := p25_idx s; p50_idx := p50_idx s;
       p75_idx := p75_idx s; max_idx := max_idx s;
       total_payoffs := total_payoffs s;
       current_option_price := current_option_price s;
       black_scholes_price := black_scholes_price s |}
  else s.

(** [total_payoffs += payoff]. *)
Definition add_payoff (payoff : float) (s : SimulationState) : SimulationState :=
  {| S0 := S0 s; v0 := v0 s; r := r s; theta := theta s; kappa := kappa s;
     xi := xi s; rho := rho s; T := T s; K := K s; N := N s;
     simulation_count := simulation_count s;
     tracking_phase := tracking_phase s;
     all_paths := all_paths s;
     paths_stored := paths_stored s;
     min_idx := min_idx s; p25_idx := p25_idx s; p50_idx := p50_idx s;
     p75_idx := p75_idx s; max_idx := max_idx s;
     total_payoffs := (total_payoffs s + payoff)%float;
     current_option_price := current_option_price s;
     black_scholes_price := black_scholes_price s |}.

(** Leaving the tracking phase: clear the flag, sort the stored paths by
    final price, record the five indices. *)
Definition exit_tracking (s : SimulationState) : SimulationState :=
  if simulation_count s >=? PERCENTILE_TRACKING_LIMIT - 1 then
    let n := Z.to_nat (paths_stored s) in
    {| S0 := S0 s; v0 := v0 s; r := r s; theta := theta s; kappa := kappa s;
       xi := xi s; rho := rho s; T := T s; K := K s; N := N s;
       simulation_count := simulation_count s;
       tracking_phase := 0;
       all_paths := qsort (take n (all_paths s)) compare_paths ++ drop n (all_paths s);
       paths_stored := paths_stored s;
       min_idx := 0;
       p25_idx := paths_stored s / 4;
       p50_idx := paths_stored s / 2;
       p75_idx := (3 * paths_stored s) / 4;
       max_idx := paths_stored s - 1;
       total_payoffs := total_payoffs s;
       current_option_price := current_option_price s;
       black_scholes_price := black_scholes_price s |}
  else s.

(** [simulation_count++]. *)
Definition count_simulation (s : SimulationState) : SimulationState :=
  {| S0 := S0 s; v0 := v0 s; r := r s; theta := theta s; kappa := kappa s;
     xi := xi s; rho := rho s; T := T s; K := K s; N := N s;
     simulation_count := wrap_int (simulation_count s + 1);
     tracking_phase := tracking_phase s;
     all_paths := all_paths s;
     paths_stored := paths_stored s;
     min_idx := min_idx s; p25_idx := p25_idx s; p50_idx := p50_idx s;
     p75_idx := p75_idx s; max_idx := max_idx s;
     total_payoffs := total_payoffs s;
     current_option_price := current_option_price s;
     black_scholes_price := black_scholes_price s |}.

(** One iteration of the loop of [run_simulation_batch]. *)
Definition batch_iteration (w : World) : World :=
  let s := sim_state w in
  if negb (tracking_phase s =? 0) && (simulation_count s <? PERCENTILE_TRACKING_LIMIT) then
    let (p, g) := simulate_single_path normal_random (S0 s) (v0 s) (r s) (theta s)
                    (kappa s) (xi s) (rho s) (T s) (N s) (rng w) in
    let s := store_path p s in
    let payoff := fmax (p !!! Z.to_nat (N s) - K s) 0.0 in
    let s := add_payoff payoff s in
    let s := exit_tracking s in
    {| sim_state := count_simulation s; rng := g |}
  else
    let (final_price, g) := simulate_final_price normal_random (S0 s) (v0 s) (r s)
                              (theta s) (kappa s) (xi s) (rho s) (T s) (N s) (rng w) in
    let payoff := fmax (final_price - K s) 0.0 in
    let s := add_payoff payoff s in
    {| sim_state := count_simulation s; rng := g |}.

(** The statement after the loop: the discounted mean of the payoffs. *)
Definition update_option_price (s : SimulationState) : SimulationState :=
  {| S0 := S0 s; v0 := v0 s; r := r s; theta := theta s; kappa := kappa s;
     xi := xi s; rho := rho s; T := T s; K := K s; N := N s;
     simulation_count := simulation_count s;
     tracking_phase := tracking_phase s;
     all_paths := all_paths s;
     paths_stored := paths_stored s;
     min_idx := min_idx s; p25_idx := p25_idx s; p50_idx := p50_idx s;
     p75_idx := p75_idx s; max_idx := max_idx s;
     total_payoffs := total_payoffs s;
     current_option_price :=
       (exp (- r s * T s) * (total_payoffs s / double_of_int (simulation_count s)))%float;
     black_scholes_price := black_scholes_price s |}.

Definition run_simulation_batch (batch_size : Z) (w : World) : World :=
  let w := for_loop (fun _ => batch_iteration) 0 (Z.to_nat batch_size) w in
  {| sim_state := update_option_price (sim_state w); rng := rng w |}.

(** *** Accessors *)

Definition get_simulation_count (w : World) : Z := simulation_count (sim_state w).
Definition get_option_price (w : World) : float := current_option_price (sim_state w).
Definition get_black_scholes_price (w : World) : float := black_scholes_price (sim_state w).
Definition get_time_steps (w : World) : Z := N (sim_state w).
Definition is_tracking_phase (w : World) : Z := tracking_phase (sim_state w).

(** The [switch] of [get_percentile_path]: the index field a recognised
    percentile selects. *)
Definition percentile_index (percentile : Z) (s : SimulationState) : option Z :=
  if percentile =? 0 then Some (min_idx s)
  else if percentile =? 25 then Some (p25_idx s)
  else if percentile =? 50 then Some (p50_idx s)
  else if percentile =? 75 then Some (p75_idx s)
  else if percentile =? 100 then Some (max_idx s)
  else None.

(** The result is the pointer returned ([None] for [NULL]) and the state
    left behind; [OutOfBounds] marks a read outside the allocated array. *)
Definition get_percentile_path (percentile : Z) (w : World)
    : read (option (list float)) * World :=
  let s := sim_state w in
  if (tracking_phase s =? 0) && (paths_stored s >? 0) then
    match percentile_index percentile s with
    | Some idx =>
        (match array_read (all_paths s) idx with
         | Value e => Value (path e)
         | OutOfBounds => OutOfBounds
         end, w)
    | None => (Value None, w)
    end
  else (Value None, w).

(** *** Reachable states *)

(** The states the exported operations produce from program start.  The
    side conditions keep the execution within defined C behaviour: a
    step count for which the arrays can be allocated, and a simulation
    counter that stays an [int]. *)
Inductive reachable : World -> Prop :=
| reach_start : reachable initial_world
| reach_initialize w now S0 v0 r theta kappa xi rho T K N :
    reachable w ->
    0 <= N < INT_MAX ->
    reachable (initialize_simulation now S0 v0 r theta kappa xi rho T K N w)
| reach_batch w batch_size :
    reachable w ->
    simulation_count (sim_state w) + Z.max 0 batch_size <= INT_MAX ->
    reachable (run_simulation_batch batch_size w).

(** The states of a run: an [initialize_simulation] has taken place, and
    only batches since the last one. *)
Inductive running : World -> Prop :=
| run_initialize w now S0 v0 r theta kappa xi rho T K N :
    reachable w ->
    0 <= N < INT_MAX ->
    running (initialize_simulation now S0 v0 r theta kappa xi rho T K N w)
| run_batch w batch_size :
    running w ->
    simulation_count (sim_state w) + Z.max 0 batch_size <= INT_MAX ->
    running (run_simulation_batch batch_size w).

End Driver.

(** ** Reference instances

    Concrete stand-ins for the parts of the C library the model takes as
    parameters; they make closed examples computable. *)

(** [math.h] by truncated power series, accurate near the expansion point. *)
Module SeriesLibm.
Local Open Scope float_scope.

(** [acc + sum over k of term_k * weight k], where
    [term_k = term_(k-1) * ratio k]. *)
Fixpoint power_series (ratio weight : float -> float) (n : nat) (k term acc : float)
    : float :=
  match n with
  | O => acc
  | S n' =>
      let term := term * ratio k in
      power_series ratio weight n' (k + 1) term (acc + term * weight k)
  end.

Definition exp (x : float) : float :=
  power_series (fun k => x / k) (fun _ => 1) 24 1 1 1.

Definition sin (x : float) : float :=
  power_series (fun k => - (x * x) / ((2 * k) * (2 * k + 1))) (fun _ => 1) 16 1 x x.

Definition cos (x : float) : float :=
  power_series (fun k => - (x * x) / ((2 * k - 1) * (2 * k))) (fun _ => 1) 16 1 1 1.

Definition log (x : float) : float :=
  let y := (x - 1) / (x + 1) in
  2 * power_series (fun _ => y * y) (fun k => 1 / (2 * k + 1)) 40 1 y y.

Definition erf (x : float) : float :=
  2 / sqrt M_PI *
  power_series (fun k => - (x * x) / k) (fun k => 1 / (2 * k + 1)) 30 1 x x.

Definition libm : Libm := Build_Libm exp log sin cos erf.
End SeriesLibm.

(** [SeriesLibm] with the exponential clamped at zero: like [exp] of
    [math.h], it never returns a value below zero. *)
Definition clamped_libm : Libm :=
  Build_Libm (fun x => fmax (SeriesLibm.exp x) 0)
    SeriesLibm.log SeriesLibm.sin SeriesLibm.cos SeriesLibm.erf.

(** [qsort] by insertion. *)
Fixpoint insert_sorted {A : Type} (cmp : A -> A -> Z) (x : A) (l : list A) : list A :=
  match l with
  | [] => [x]
  | y :: l' => if cmp x y <=? 0 then x :: l else y :: insert_sorted cmp x l'
  end.

Definition insertion_sort {A : Type} (l : list A) (cmp : A -> A -> Z) : list A :=
  foldr (insert_sorted cmp) [] l.

(** A source of normal draws that replays a fixed list, then zeros. *)
Definition injected_normal (zs : list float) : float * list float :=
  match zs with
  | [] => (0%float, [])
  | z :: zs' => (z, zs')
  end.

(** The operations with the C library instantiated by the references. *)
Definition ref_initialize_simulation := @initialize_simulation SeriesLibm.libm.
Definition ref_run_simulation_batch := @run_simulation_batch SeriesLibm.libm insertion_sort.

(** A run started at time 42 with [S0 = K = 100], [v0 = theta = 0.25],
    [kappa = 1], [xi = 0.5], [r = rho = 0], [T = 1] and [N = 4] steps, and
    the same run after a batch of 1000 simulations. *)
Definition example_start : World :=
  ref_initialize_simulation 42 100 0.25 0 0.25 1 0.5 0 1 100 4 initial_world.
Definition example_run : World := ref_run_simulation_batch 1000 example_start.

(** ** Floating-point order *)

(** The position of a value that is not NaN in the order of the
    comparisons: class, then exponent, then mantissa. *)
Definition order_key (x : spec_float) : Z * Z * Z :=
  match x with
  | S754_infinity true => (-2, 0, 0)
  | S754_finite true m e => (-1, - e, - Z.pos m)
  | S754_zero _ => (0, 0, 0)
  | S754_nan => (0, 0, 0)
  | S754_finite false m e => (1, e, Z.pos m)
  | S754_infinity false => (2, 0, 0)
  end.

Definition key_lt (k k' : Z * Z * Z) : Prop :=
  k.1.1 < k'.1.1 \/
  (k.1.1 = k'.1.1 /\ (k.1.2 < k'.1.2 \/ (k.1.2 = k'.1.2 /\ k.2 < k'.2))).

Definition key_le (k k' : Z * Z * Z) : Prop := key_lt k k' \/ k = k'.

(** The values one and [0x7fffffff], as [Prim2SF] shows them. *)
Definition SF_one : spec_float := S754_finite false 4503599627370496 (-52).
Definition SF_modulus : spec_float := S754_finite false 9007199250546688 (-22).

(** ** Invariants of the simulation state *)

(** The paths stored so far: the first [paths_stored] cells of [all_paths]. *)
Definition stored_paths (s : SimulationState) : list PricePath :=
  take (Z.to_nat (paths_stored s)) (all_paths s).

(** A stored entry points to an array of [n + 1] prices and caches the
    last of them. *)
Definition stored_ok (n : Z) (e : PricePath) : Prop :=
  exists p : list float,
    path e = Some p /\ length p = Z.to_nat (n + 1) /\
    p !! Z.to_nat n = Some (final_price e).

(** The five indices, as functions of the number of stored paths. *)
Definition indices_ok (s : SimulationState) : Prop :=
  min_idx s = 0 /\
  p25_idx s = paths_stored s / 4 /\
  p50_idx s = paths_stored s / 2 /\
  p75_idx s = (3 * paths_stored s) / 4 /\
  max_idx s = paths_stored s - 1.

Definition terminal_le (a b : PricePath) : Prop :=
  (final_price a <=? final_price b)%float = true.

Definition no_nan_terminal (l : list PricePath) : Prop :=
  Forall (fun e => is_nan (final_price e) = false) l.

Definition state_inv (s : SimulationState) : Prop :=
  0 <= N s < INT_MAX /\
  0 <= paths_stored s <= MAX_PERCENTILE_PATHS /\
  (tracking_phase s <> 0 -> length (all_paths s) = Z.to_nat MAX_PERCENTILE_PATHS) /\
  (Z.to_nat (paths_stored s) <= length (all_paths s))%nat /\
  Forall (stored_ok (N s)) (stored_paths s) /\
  (tracking_phase s = 0 -> 0 < paths_stored s -> indices_ok s).

Definition sorted_inv (s : SimulationState) : Prop :=
  tracking_phase s = 0 -> 0 < paths_stored s ->
  no_nan_terminal (stored_paths s) -> StronglySorted terminal_le (stored_paths s).

(** Phase and counter agree: tracking below the limit, fast from it on. *)
Definition phase_inv (s : SimulationState) : Prop :=
  (tracking_phase s = 1 /\ 0 <= simulation_count s < PERCENTILE_TRACKING_LIMIT) \/
  (tracking_phase s = 0 /\ PERCENTILE_TRACKING_LIMIT <= simulation_count s).

(** ** The generator as a map on states *)

(** The right-hand side of the assignment to [rand_seed] in
    [simple_random], as a function of the state it reads. *)
Definition next_seed (s : Z) : Z :=
  Z.land (wrap_ulong (s * 1103515245 + 12345)) 0x7fffffff.

(** The state before: 1857678181 is the inverse of the multiplier
    1103515245 modulo [2^31]. *)
Definition prev_seed (s : Z) : Z := ((s - 12345) * 1857678181) mod 2 ^ 31.

(** ** The driver without path tracking *)

Section FastDriver.
Context `{Libm}.

(** The [else] branch of the loop of [run_simulation_batch], followed by
    the increment of the counter. *)
Definition fast_iteration (w : World) : World :=
  let s := sim_state w in
  let (final_price, g) := simulate_final_price normal_random (S0 s) (v0 s) (r s)
                            (theta s) (kappa s) (xi s) (rho s) (T s) (N s) (rng w) in
  let payoff := fmax (final_price - K s) 0.0 in
  let s := add_payoff payoff s in
  {| sim_state := count_simulation s; rng := g |}.

(** [run_simulation_batch] with every iteration taking the [else] branch. *)
Definition run_fast_batch (batch_size : Z) (w : World) : World :=
  let w := for_loop (fun _ => fast_iteration) 0 (Z.to_nat batch_size) w in
  {| sim_state := update_option_price (sim_state w); rng := rng w |}.

End FastDriver.

(** ** Further invariants *)

(** The model parameters and the reference price: what
    [initialize_simulation] sets and a batch only reads. *)
Definition configuration (s : SimulationState)
    : float * float * float * float * float * float * float * float * float * Z * float :=
  (S0 s, v0 s, r s, theta s, kappa s, xi s, rho s, T s, K s, N s, black_scholes_price s).

(** What the price depends on: the configuration, the counter, the sum of
    payoffs and the random source. *)
Definition pricing_view (w : World) :=
  (configuration (sim_state w), simulation_count (sim_state w),
   total_payoffs (sim_state w), rng w).

(** What [get_percentile_path] reads. *)
Definition percentile_view (s : SimulationState) :=
  (tracking_phase s, all_paths s, paths_stored s,
   (min_idx s, p25_idx s, p50_idx s, p75_idx s, max_idx s)).

(** A stored entry points to an array whose first cell is [x]. *)
Definition starts_at (x : float) (e : PricePath) : Prop :=
  exists p : list float, path e = Some p /\ p !! 0%nat = Some x.

(** A value that is neither NaN nor below zero. *)
Definition nonneg (x : float) : Prop := (0 <=? x)%float = true.

(** The state before any [initialize_simulation]: the static state, but
    for the counter and the price. *)
Definition uninitialised (w : World) : Prop :=
  rng w = rng initial_world /\
  configuration (sim_state w) = configuration (sim_state initial_world) /\
  percentile_view (sim_state w) = percentile_view (sim_state initial_world) /\
  total_payoffs (sim_state w) = 0%float.

(** Batches run one after the other, the first of the list first. *)
Definition run_batches `{Libm}
    (qsort : list PricePath -> (PricePath -> PricePath -> Z) -> list PricePath)
    (sizes : list Z) (w : World) : World :=
  foldl (fun w n => run_simulation_batch qsort n w) w sizes.

(** The number of simulations a list of batch sizes stands for: a size of
    zero or less runs none. *)
Definition simulations_of (sizes : list Z) : Z :=
  foldr (fun n acc => Z.max 0 n + acc) 0 sizes.

(** A value with a clear sign bit: [+0.0], a finite value above zero or
    [+inf]. *)
Definition SF_unsigned (x : spec_float) : Prop :=
  match x with
  | S754_nan => False
  | S754_zero s | S754_infinity s | S754_finite s _ _ => s = false
  end.

(** The state with the option price replaced. *)
Definition set_option_price (p : float) (s : SimulationState) : SimulationState :=
  {| S0 := S0 s; v0 := v0 s; r := r s; theta := theta s; kappa := kappa s;
     xi := xi s; rho := rho s; T := T s; K := K s; N := N s;
     simulation_count := simulation_count s;
     tracking_phase := tracking_phase s;
     all_paths := all_paths s;
     paths_stored := paths_stored s;
     min_idx := min_idx s; p25_idx := p25_idx s; p50_idx := p50_idx s;
     p75_idx := p75_idx s; max_idx := max_idx s;
     total_payoffs := total_payoffs s;
     current_option_price := p;
     black_scholes_price := black_scholes_price s |}.

(** ** Tactics *)

(** Case analysis on the next test [percentile =? c] of the [switch]. *)
Ltac case_percentile :=
  match goal with
  | |- context [?p =? ?c] =>
      let E := fresh "E" in
      destruct (p =? c) eqn:E; [apply Z.eqb_eq in E | apply Z.eqb_neq in E]
  end.
(** * Properties *)

(** ** Floating-point order *)

Lemma SFcompare_key (x y : spec_float) :
  x <> S754_nan -> y <> S754_nan ->
  match SFcompare x y with
  | Some Lt => key_lt (order_key x) (order_key y)
  | Some Eq => order_key x = order_key y
  | Some Gt => key_lt (order_key y) (order_key x)
  | None => False
  end.
Proof.
  unfold key_lt.
  destruct x as [[]|[]| |[] m e], y as [[]|[]| |[] m' e']; intros Hx Hy; try done;
    simpl; try lia;
    change (Pos.compare_cont Eq m m') with (Pos.compare m m');
    destruct (Z.compare_spec e e'), (Pos.compare_spec m m'); subst; simpl; try lia;
    reflexivity.
Qed.

Lemma key_le_trans (a b c : Z * Z * Z) : key_le a b -> key_le b c -> key_le a c.
Proof.
  destruct a as [[a1 a2] a3], b as [[b1 b2] b3], c as [[c1 c2] c3].
  unfold key_le, key_lt; cbn [fst snd].
  intros [Hab|[= -> -> ->]] [Hbc|[= <- <- <-]]; auto. left. lia.
Qed.

Lemma key_le_not_lt (a b : Z * Z * Z) : key_le a b <-> ~ key_lt b a.
Proof.
  destruct a as [[a1 a2] a3], b as [[b1 b2] b3].
  unfold key_le, key_lt; cbn [fst snd]. split.
  - intros [H|[= -> -> ->]]; lia.
  - intros Hn.
    destruct (decide (a1 = b1 /\ a2 = b2 /\ a3 = b3)) as [(-> & -> & ->)|Hne]; [by right|].
    left. lia.
Qed.

Lemma is_nan_false (x : float) : is_nan x = false <-> Prim2SF x <> S754_nan.
Proof.
  unfold is_nan. rewrite FloatAxioms.eqb_spec. unfold SFeqb. split.
  - intros Hx Hnan. rewrite Hnan in Hx. discriminate.
  - intros Hx. pose proof (SFcompare_key _ _ Hx Hx) as Hk.
    destruct (SFcompare (Prim2SF x) (Prim2SF x)) as [[]|]; try done;
      exfalso; revert Hk; generalize (order_key (Prim2SF x));
      intros [[a b] c]; unfold key_lt; cbn [fst snd]; lia.
Qed.

Lemma ltb_true (x y : float) :
  (x <? y)%float = true <->
  is_nan x = false /\ is_nan y = false /\
  key_lt (order_key (Prim2SF x)) (order_key (Prim2SF y)).
Proof.
  rewrite FloatAxioms.ltb_spec, !is_nan_false. unfold SFltb. split.
  - intros Hlt.
    assert (Hx : Prim2SF x <> S754_nan).
    { intros E. rewrite E in Hlt. discriminate. }
    assert (Hy : Prim2SF y <> S754_nan).
    { intros E. rewrite E in Hlt. by destruct (Prim2SF x). }
    pose proof (SFcompare_key _ _ Hx Hy) as Hk.
    by destruct (SFcompare (Prim2SF x) (Prim2SF y)) as [[]|].
  - intros (Hx & Hy & Hlt). pose proof (SFcompare_key _ _ Hx Hy) as Hk.
    revert Hk Hlt. generalize (order_key (Prim2SF x)) (order_key (Prim2SF y)).
    intros [[a b] c] [[a' b'] c'].
    destruct (SFcompare (Prim2SF x) (Prim2SF y)) as [[]|]; try done;
      unfold key_lt; cbn [fst snd]; [intros [= -> -> ->]|]; lia.
Qed.

Lemma leb_true (x y : float) :
  (x <=? y)%float = true <->
  is_nan x = false /\ is_nan y = false /\
  key_le (order_key (Prim2SF x)) (order_key (Prim2SF y)).
Proof.
  rewrite FloatAxioms.leb_spec, !is_nan_false. unfold SFleb. split.
  - intros Hle.
    assert (Hx : Prim2SF x <> S754_nan).
    { intros E. rewrite E in Hle. discriminate. }
    assert (Hy : Prim2SF y <> S754_nan).
    { intros E. rewrite E in Hle. by destruct (Prim2SF x). }
    pose proof (SFcompare_key _ _ Hx Hy) as Hk. unfold key_le.
    destruct (SFcompare (Prim2SF x) (Prim2SF y)) as [[]|]; try done; auto.
  - intros (Hx & Hy & Hle). pose proof (SFcompare_key _ _ Hx Hy) as Hk.
    apply key_le_not_lt in Hle.
    by destruct (SFcompare (Prim2SF x) (Prim2SF y)) as [[]|].
Qed.

(** On values that are not NaN, [<=?] is reflexive and transitive, and it
    holds whenever the converse [<?] fails. *)
Lemma leb_refl (x : float) : is_nan x = false -> (x <=? x)%float = true.
Proof. intros Hx. apply leb_true. repeat split; try done. by right. Qed.

Lemma leb_trans (x y z : float) :
  (x <=? y)%float = true -> (y <=? z)%float = true -> (x <=? z)%float = true.
Proof.
  rewrite !leb_true. intros (Hx & _ & Hxy) (_ & Hz & Hyz).
  repeat split; try done. by eapply key_le_trans.
Qed.

Lemma not_ltb_leb (x y : float) :
  is_nan x = false -> is_nan y = false ->
  (y <? x)%float = false -> (x <=? y)%float = true.
Proof.
  intros Hx Hy Hlt. apply leb_true. repeat split; try done.
  apply key_le_not_lt. intros Hk.
  assert ((y <? x)%float = true) by (apply ltb_true; done). congruence.
Qed.

Lemma ltb_leb (x y : float) : (x <? y)%float = true -> (x <=? y)%float = true.
Proof. rewrite ltb_true, leb_true. intros (? & ? & ?). repeat split; try done. by left. Qed.

Lemma leb_not_ltb (x y : float) : (x <=? y)%float = true -> (y <? x)%float = false.
Proof.
  rewrite leb_true. intros (Hx & Hy & Hle).
  destruct (y <? x)%float eqn:E; [|done].
  apply ltb_true in E as (_ & _ & E). by apply key_le_not_lt in Hle.
Qed.

Lemma mul_nan_r (x : float) : (x * nan)%float = nan.
Proof.
  apply Prim2SF_inj. rewrite FloatAxioms.mul_spec.
  change (Prim2SF nan) with S754_nan. by destruct (Prim2SF x).
Qed.

(** ** Rounding of a quotient below one *)

Lemma digits2_pos_bounds (p : positive) :
  2 ^ (Z.pos (digits2_pos p) - 1) <= Z.pos p < 2 ^ Z.pos (digits2_pos p).
Proof.
  induction p as [p IH|p IH|]; simpl digits2_pos; [| |simpl; lia].
  - rewrite Pos2Z.inj_succ, (Pos2Z.inj_xI p).
    replace (Z.succ (Z.pos (digits2_pos p)) - 1) with (Z.succ (Z.pos (digits2_pos p) - 1)) by lia.
    rewrite !Z.pow_succ_r by lia.
    revert IH. generalize (2 ^ (Z.pos (digits2_pos p) - 1)) (2 ^ Z.pos (digits2_pos p)). lia.
  - rewrite Pos2Z.inj_succ, (Pos2Z.inj_xO p).
    replace (Z.succ (Z.pos (digits2_pos p)) - 1) with (Z.succ (Z.pos (digits2_pos p) - 1)) by lia.
    rewrite !Z.pow_succ_r by lia.
    revert IH. generalize (2 ^ (Z.pos (digits2_pos p) - 1)) (2 ^ Z.pos (digits2_pos p)). lia.
Qed.

Lemma digits2_pos_unique (p : positive) (k : Z) :
  2 ^ (k - 1) <= Z.pos p < 2 ^ k -> Z.pos (digits2_pos p) = k.
Proof.
  intros Hk. pose proof (digits2_pos_bounds p) as Hd.
  assert (0 < k).
  { destruct (Z.ltb_spec 0 k); [assumption|].
    assert (2 ^ k <= 1); [|lia].
    destruct (Z.eq_dec k 0) as [->|]; [simpl; lia|]. rewrite Z.pow_neg_r; lia. }
  destruct (Z.lt_trichotomy (Z.pos (digits2_pos p)) k) as [Hlt|[Heq|Hgt]]; [|assumption|].
  - assert (2 ^ Z.pos (digits2_pos p) <= 2 ^ (k - 1)) by (apply Z.pow_le_mono_r; lia). lia.
  - assert (2 ^ k <= 2 ^ (Z.pos (digits2_pos p) - 1)) by (apply Z.pow_le_mono_r; lia). lia.
Qed.

Lemma shr_record_of_loc_m (m : Z) (l : location) : shr_m (shr_record_of_loc m l) = m.
Proof. by destruct l as [|[]]. Qed.

Lemma loc_of_shr_record_of_loc (m : Z) (l : location) :
  loc_of_shr_record (shr_record_of_loc m l) = l.
Proof. by destruct l as [|[]]. Qed.

Lemma round_nearest_even_bounds (m : Z) (l : location) :
  m <= round_nearest_even m l <= m + 1.
Proof. destruct l as [|[]]; simpl; try lia. destruct (Z.even m); lia. Qed.

(** A 53-bit mantissa needs no shift. *)
Lemma shr_fexp_53 (m e : Z) (l : location) :
  2 ^ 52 <= m < 2 ^ 53 -> -1074 <= e ->
  shr_fexp prec emax m e l = (shr_record_of_loc m l, e).
Proof.
  intros Hm He. unfold shr_fexp.
  destruct m as [|p|p]; [lia| |lia].
  cbn [Zdigits2]. rewrite (digits2_pos_unique p 53) by (simpl; lia).
  replace (fexp prec emax (53 + e) - e) with 0; [reflexivity|].
  unfold fexp, SpecFloat.emin, prec, emax. lia.
Qed.

(** Rounding a mantissa in [[2^52, 2^53)] at an exponent of [-53] or less
    gives a value between zero and one. *)
Lemma binary_round_aux_le_one (q e : Z) (l : location) :
  2 ^ 52 <= q < 2 ^ 53 -> -1074 <= e <= -53 ->
  SFleb (binary_round_aux prec emax false q e l) SF_one = true /\
  SFleb (S754_zero false) (binary_round_aux prec emax false q e l) = true.
Proof.
  intros Hq He. unfold binary_round_aux.
  rewrite shr_fexp_53 by lia.
  rewrite shr_record_of_loc_m, loc_of_shr_record_of_loc.
  pose proof (round_nearest_even_bounds q l) as Hr.
  destruct (Z.eq_dec (round_nearest_even q l) (2 ^ 53)) as [Heq|Hne].
  - rewrite Heq. change (2 ^ 53) with 9007199254740992.
    unfold shr_fexp. change (Zdigits2 9007199254740992) with 54.
    replace (fexp prec emax (54 + e) - e) with 1
      by (unfold fexp, SpecFloat.emin, prec, emax; lia).
    change (shr (shr_record_of_loc 9007199254740992 loc_Exact) e 1)
      with ({| shr_m := 4503599627370496; shr_r := false; shr_s := false |}, e + 1).
    cbn [shr_m].
    replace (e + 1 <=? emax - prec) with true
      by (symmetry; apply Z.leb_le; unfold emax, prec; lia).
    unfold SFleb, SF_one, SFcompare.
    destruct (Z.compare_spec (e + 1) (-52)) as [| |]; [by split | by split | lia].
  - rewrite shr_fexp_53 by lia. cbn [shr_record_of_loc shr_m].
    destruct (round_nearest_even q l) as [|p|p]; [lia| |lia].
    replace (e <=? emax - prec) with true
      by (symmetry; apply Z.leb_le; unfold emax, prec; lia).
    unfold SFleb, SF_one, SFcompare.
    destruct (Z.compare_spec e (-52)) as [| |]; [lia | by split | lia].
Qed.

(** Dividing a 53-bit mantissa that stands for at most [2^31 - 2] by
    [2^31 - 1] gives at most one. *)
Lemma SFdiv_by_modulus (mx : positive) (ex : Z) :
  2 ^ 52 <= Z.pos mx <= 2 ^ 53 - 2 ^ 23 -> -52 <= ex <= -22 ->
  SFleb (SFdiv prec emax (S754_finite false mx ex) SF_modulus) SF_one = true /\
  SFleb (S754_zero false) (SFdiv prec emax (S754_finite false mx ex) SF_modulus) = true.
Proof.
  intros Hmx Hex. unfold SFdiv, SF_modulus, SFdiv_core_binary.
  cbn [Zdigits2]. rewrite (digits2_pos_unique mx 53) by lia.
  change (Z.pos (digits2_pos 9007199250546688)) with 53.
  replace (Z.min (fexp prec emax (53 + ex - (53 + -22))) (ex - -22)) with (ex - 31)
    by (unfold fexp, SpecFloat.emin, prec, emax; lia).
  replace (ex - -22 - (ex - 31)) with 53 by lia.
  rewrite Z.shiftl_mul_pow2 by lia.
  pose proof (Z_div_mod (Z.pos mx * 2 ^ 53) 9007199250546688 eq_refl) as Hdiv.
  destruct (Z.div_eucl (Z.pos mx * 2 ^ 53) 9007199250546688) as [q rem].
  cbn [xorb]. apply binary_round_aux_le_one; lia.
Qed.

(** An integer of at most 31 bits, other than [2^31 - 1], converts to a
    53-bit mantissa that stands for at most [2^31 - 2]. *)
Lemma binary_normalize_31 (p : positive) :
  Z.pos p <= 2 ^ 31 - 2 ->
  exists (mx : positive) (ex : Z),
    binary_normalize prec emax (Z.pos p) 0 false = S754_finite false mx ex /\
    2 ^ 52 <= Z.pos mx <= 2 ^ 53 - 2 ^ 23 /\ -52 <= ex <= -22.
Proof.
  intros Hp. pose proof (digits2_pos_bounds p) as Hd.
  set (d := Z.pos (digits2_pos p)) in *.
  assert (Hd31 : 1 <= d <= 31).
  { split; [unfold d; lia|].
    destruct (Z.le_gt_cases d 31) as [|Hgt]; [assumption|].
    assert (2 ^ 31 <= 2 ^ (d - 1)) by (apply Z.pow_le_mono_r; lia). lia. }
  set (k := Z.to_pos (53 - d)).
  assert (Hk : Z.pos k = 53 - d) by (unfold k; rewrite Z2Pos.id; lia).
  exists (Pos.iter xO p k), (Z.neg k).
  assert (Hval : Z.pos (Pos.iter xO p k) = Z.pos p * 2 ^ (53 - d)).
  { change (Pos.iter xO p k) with (shift_pos k p).
    rewrite shift_pos_correct. change (Z.pow_pos 2 k) with (2 ^ Z.pos k).
    rewrite Hk. apply Z.mul_comm. }
  assert (Hrange : 2 ^ 52 <= Z.pos (Pos.iter xO p k) <= 2 ^ 53 - 2 ^ 23).
  { rewrite Hval. split.
    - replace (2 ^ 52) with (2 ^ (d - 1) * 2 ^ (53 - d))
        by (rewrite <- Z.pow_add_r by lia; f_equal; lia).
      apply Z.mul_le_mono_nonneg_r; [apply Z.pow_nonneg; lia | lia].
    - destruct (Z.eq_dec d 31) as [Hd'|Hd'].
      + rewrite Hd'. change (2 ^ (53 - 31)) with 4194304. lia.
      + replace (53 - d) with ((30 - d) + 23) by lia.
        rewrite Z.pow_add_r by lia.
        assert (HY : Z.pos p * 2 ^ (30 - d) < 2 ^ 30).
        { replace (2 ^ 30) with (2 ^ d * 2 ^ (30 - d))
            by (rewrite <- Z.pow_add_r by lia; f_equal; lia).
          apply Z.mul_lt_mono_pos_r; [apply Z.pow_pos_nonneg; lia | lia]. }
        rewrite Z.mul_assoc.
        revert HY. generalize (Z.pos p * 2 ^ (30 - d)). intros Y HY.
        change (2 ^ 23) with 8388608.
        change (2 ^ 30) with 1073741824 in HY. change (2 ^ 53) with 9007199254740992.
        lia. }
  split; [|split; [done | lia]].
  unfold binary_normalize, binary_round. fold d.
  replace (fexp prec emax (d + 0)) with (Z.neg k)
    by (unfold fexp, SpecFloat.emin, prec, emax; lia).
  unfold shl_align. rewrite Z.sub_0_r.
  unfold binary_round_aux.
  rewrite shr_fexp_53 by lia. cbn [shr_record_of_loc shr_m loc_of_shr_record round_nearest_even].
  rewrite shr_fexp_53 by lia. cbn [shr_record_of_loc shr_m].
  replace (Z.neg k <=? emax - prec) with true
    by (symmetry; apply Z.leb_le; unfold emax, prec; lia).
  reflexivity.
Qed.

(** The quotient [(double)n / 0x7fffffff] of a 31-bit [n] lies between
    zero and one, both included. *)
Lemma uniform_quotient_range (n : Z) :
  0 <= n <= 2147483647 ->
  (0 <=? double_of_ulong n / 0x7fffffff)%float = true /\
  (double_of_ulong n / 0x7fffffff <=? 1)%float = true.
Proof.
  intros Hn. rewrite !FloatAxioms.leb_spec, FloatAxioms.div_spec.
  unfold double_of_ulong. rewrite of_uint63_spec, Uint63.of_Z_spec.
  rewrite Z.mod_small by (change wB with (2 ^ 63); lia).
  change (Prim2SF 0x7fffffff) with SF_modulus.
  change (Prim2SF 1) with SF_one. change (Prim2SF 0) with (S754_zero false).
  unfold SF64div.
  destruct n as [|p|p]; [by vm_compute | | lia].
  destruct (Z.eq_dec (Z.pos p) 2147483647) as [Hmax|Hne].
  - injection Hmax as ->. by vm_compute.
  - destruct (binary_normalize_31 p) as (mx & ex & -> & Hmx & Hex); [lia|].
    pose proof (SFdiv_by_modulus mx ex Hmx Hex) as [H1 H0]. by split.
Qed.

(** ** The linear congruential step *)

Lemma lcg_state (s : Z) :
  Z.land (wrap_ulong (s * 1103515245 + 12345)) 0x7fffffff
  = (s * 1103515245 + 12345) mod 2 ^ 31.
Proof.
  unfold wrap_ulong, ULONG_BITS.
  change 0x7fffffff with (Z.ones 31).
  rewrite Z.land_ones by lia.
  apply Z.mod_mod_divide. exists 2. reflexivity.
Qed.


(** C5, amended.  Whatever the state, [simple_random] sets it to
    [(seed * 1103515245 + 12345) mod 2^31], leaves the spare slot alone,
    and returns that new state divided by [2^31 - 1]; the value returned
    lies in the closed interval from 0 to 1. *)
Theorem simple_random_unit_interval (g : Rng) :
  let u := (simple_random g).1 in
  let g' := (simple_random g).2 in
  rand_seed g' = (rand_seed g * 1103515245 + 12345) mod 2 ^ 31 /\
  0 <= rand_seed g' < 2 ^ 31 /\
  has_spare g' = has_spare g /\ spare g' = spare g /\
  u = (double_of_ulong (rand_seed g') / 2147483647)%float /\
  (0 <=? u)%float = true /\ (u <=? 1)%float = true.
Proof.
  intros u g'. unfold u, g', simple_random. cbn [fst snd rand_seed has_spare spare].
  rewrite lcg_state.
  pose proof (Z.mod_pos_bound (rand_seed g * 1103515245 + 12345) (2 ^ 31) eq_refl) as Hb.
  do 5 (split; [done|]).
  apply uniform_quotient_range. change (2 ^ 31) with 2147483648 in *. lia.
Qed.

(** ** Loops *)

Lemma for_loop_snoc {A : Type} (body : nat -> A -> A) (count i : nat) (a : A) :
  for_loop body i (S count) a = body (i + count)%nat (for_loop body i count a).
Proof.
  revert i a. induction count as [|k IH]; intros i a.
  - simpl. by rewrite Nat.add_0_r.
  - change (for_loop body i (S (S k)) a) with (for_loop body (S i) (S k) (body i a)).
    rewrite IH. simpl. by rewrite Nat.add_succ_r.
Qed.

(** ** Path simulator: the two loops compute one trajectory *)

Section PathSimulatorFacts.
Context `{Libm} {G : Type} (next_normal : G -> float * G).
Variables (S0 v0 r theta kappa xi rho T : float) (N : Z).

Local Abbreviation dt := (T / double_of_int N)%float.
Local Abbreviation state := (final_price_state next_normal S0 v0 r theta kappa xi rho T N).
Local Abbreviation arrays := (single_path_state next_normal S0 v0 r theta kappa xi rho T N).

Lemma final_price_state_succ (k : nat) (g : G) :
  state (S k) g = final_price_step next_normal r theta kappa xi rho dt (state k g).
Proof. unfold final_price_state. by rewrite for_loop_snoc. Qed.

Lemma final_price_step_source (st : float * float * G) :
  (final_price_step next_normal r theta kappa xi rho dt st).2
  = (step_draws next_normal st.2).2.
Proof.
  destruct st as [[a b] g]. unfold final_price_step, step_draws. simpl.
  destruct (next_normal g) as [zs g1]. by destruct (next_normal g1) as [zn g2].
Qed.

Lemma source_after_succ (k : nat) (g : G) :
  source_after next_normal (S k) g
  = (step_draws next_normal (source_after next_normal k g)).2.
Proof. revert g. induction k as [|k IH]; intros g; [done|]. simpl in *. by rewrite IH. Qed.

Lemma final_price_state_source (k : nat) (g : G) :
  (state k g).2 = source_after next_normal k g.
Proof.
  induction k as [|k IH]; [done|].
  by rewrite final_price_state_succ, final_price_step_source, IH, source_after_succ.
Qed.
Lemma arrays_succ (k : nat) (g : G) :
  arrays (S k) g
  = single_path_step next_normal r theta kappa xi rho dt (S k) (arrays k g).
Proof. unfold single_path_state. by rewrite for_loop_snoc. Qed.

Lemma single_path_step_source (i : nat) (st : list float * list float * G) :
  (single_path_step next_normal r theta kappa xi rho dt i st).2
  = (step_draws next_normal st.2).2.
Proof.
  destruct st as [[Sa va] g]. unfold single_path_step, step_draws. simpl.
  destruct (next_normal g) as [zs g1]. by destruct (next_normal g1) as [zn g2].
Qed.

Lemma single_path_state_source (k : nat) (g : G) :
  (arrays k g).2 = source_after next_normal k g.
Proof.
  induction k as [|k IH]; [done|].
  by rewrite arrays_succ, single_path_step_source, IH, source_after_succ.
Qed.

(** One iteration on the arrays is one iteration on the scalars, written
    into cell [i]. *)
Lemma single_path_step_cells (i : nat) (Sa va : list float) (g : G) (s v : float) :
  Sa !! (i - 1)%nat = Some s -> va !! (i - 1)%nat = Some v -> (1 <= i)%nat ->
  single_path_step next_normal r theta kappa xi rho dt i (Sa, va, g)
  = let st := final_price_step next_normal r theta kappa xi rho dt (s, v, g) in
    (<[i := st.1.1]> Sa, <[i := st.1.2]> va, st.2).
Proof.
  intros HS Hv Hi. unfold single_path_step, final_price_step.
  destruct (next_normal g) as [zs g1]. destruct (next_normal g1) as [zn g2].
  rewrite list_lookup_total_insert_ne by lia.
  rewrite (list_lookup_total_correct _ _ _ HS), (list_lookup_total_correct _ _ _ Hv).
  reflexivity.
Qed.

(** After [k] iterations the cells [0..k] of both arrays hold the values
    the variables of [simulate_final_price] take after [0..k] iterations,
    and the two loops have consumed the same draws. *)
Lemma arrays_trajectory (k : nat) (g : G) :
  0 <= N -> (k <= Z.to_nat N)%nat ->
  length (arrays k g).1.1 = S (Z.to_nat N) /\
  length (arrays k g).1.2 = S (Z.to_nat N) /\
  (arrays k g).2 = (state k g).2 /\
  forall j : nat, (j <= k)%nat ->
    (arrays k g).1.1 !! j = Some (state j g).1.1 /\
    (arrays k g).1.2 !! j = Some (state j g).1.2.
Proof.
  intros HN. induction k as [|k IH]; intros Hk.
  - assert (Hlen : length (malloc_doubles (N + 1)) = S (Z.to_nat N)).
    { unfold malloc_doubles. rewrite length_replicate. lia. }
    unfold single_path_state, final_price_state. simpl.
    rewrite !length_insert, Hlen. repeat split; try done.
    + replace j with 0%nat by lia. apply list_lookup_insert_eq. lia.
    + replace j with 0%nat by lia. apply list_lookup_insert_eq. lia.
  - destruct IH as (HlS & Hlv & Hg & Hcells); [lia|].
    destruct (Hcells k) as [HSk Hvk]; [lia|].
    rewrite arrays_succ.
    destruct (arrays k g) as [[Sa va] ga]. cbn [fst snd] in *.
    assert (HSk' : Sa !! (S k - 1)%nat = Some (state k g).1.1)
      by (by replace (S k - 1)%nat with k by lia).
    assert (Hvk' : va !! (S k - 1)%nat = Some (state k g).1.2)
      by (by replace (S k - 1)%nat with k by lia).
    rewrite (single_path_step_cells _ _ _ _ _ _ HSk' Hvk') by lia.
    cbn [fst snd]. rewrite !length_insert.
    rewrite final_price_state_succ.
    assert (Hst : state k g = ((state k g).1.1, (state k g).1.2, ga)).
    { rewrite Hg. by destruct (state k g) as [[? ?] ?]. }
    rewrite <- Hst.
    repeat split; try done.
    + destruct (decide (j = S k)) as [->|Hne].
      * rewrite final_price_state_succ. apply list_lookup_insert_eq. lia.
      * rewrite list_lookup_insert_ne by lia. apply Hcells. lia.
    + destruct (decide (j = S k)) as [->|Hne].
      * rewrite final_price_state_succ. apply list_lookup_insert_eq. lia.
      * rewrite list_lookup_insert_ne by lia. apply Hcells. lia.
Qed.

(** Unfolding one step of the scalar loop in terms of the draws of that
    step and the two update formulas. *)
Lemma final_price_state_step (k : nat) (g : G) :
  let Z_S := Z_S_at next_normal g (S k) in
  let Z_v := correlated_shock rho Z_S (Z_indep_at next_normal g (S k)) in
  (state (S k) g).1.1 = price_update r dt (state k g).1.1 (state k g).1.2 Z_S /\
  (state (S k) g).1.2 = milstein_variance kappa theta xi dt (state k g).1.2 Z_v.
Proof.
  unfold Z_S_at, Z_indep_at. replace (S k - 1)%nat with k by lia.
  rewrite <- final_price_state_source, final_price_state_succ.
  destruct (state k g) as [[s v] gk]. unfold final_price_step, step_draws. cbn [fst snd].
  destruct (next_normal gk) as [zs g1]. destruct (next_normal g1) as [zn g2].
  split; reflexivity.
Qed.
(** The array [simulate_single_path] returns has [N + 1] cells, all
    written. *)
Lemma simulate_single_path_shape (g : G) :
  0 <= N ->
  length (simulate_single_path next_normal S0 v0 r theta kappa xi rho T N g).1
    = Z.to_nat (N + 1) /\
  exists x : float,
    (simulate_single_path next_normal S0 v0 r theta kappa xi rho T N g).1 !! Z.to_nat N
    = Some x.
Proof.
  intros HN. unfold simulate_single_path.
  destruct (arrays_trajectory (Z.to_nat N) g HN) as (HlS & _ & _ & Hcells); [lia|].
  destruct (Hcells (Z.to_nat N)) as [HS _]; [lia|].
  destruct (arrays (Z.to_nat N) g) as [[Sa va] ga].
  cbn [fst snd] in *. split; [lia | by eexists].
Qed.

(** C7.  For every parameter set with [0 <= N] and every source of normal
    draws, [simulate_single_path] returns an array of [N + 1] prices whose
    last element, at index [N], is the value [simulate_final_price]
    returns from the same source; both leave the source in the same
    state, having taken the same draws. *)
Theorem simulate_final_price_is_last_of_path (g : G) :
  0 <= N ->
  length (simulate_single_path next_normal S0 v0 r theta kappa xi rho T N g).1
    = Z.to_nat (N + 1) /\
  (simulate_single_path next_normal S0 v0 r theta kappa xi rho T N g).1 !! Z.to_nat N
    = Some (simulate_final_price next_normal S0 v0 r theta kappa xi rho T N g).1 /\
  (simulate_single_path next_normal S0 v0 r theta kappa xi rho T N g).2
    = (simulate_final_price next_normal S0 v0 r theta kappa xi rho T N g).2.
Proof.
  intros HN. unfold simulate_single_path, simulate_final_price.
  destruct (arrays_trajectory (Z.to_nat N) g HN) as (HlS & _ & Hg & Hcells); [lia|].
  destruct (Hcells (Z.to_nat N)) as [HS _]; [lia|].
  destruct (arrays (Z.to_nat N) g) as [[Sa va] ga].
  destruct (state (Z.to_nat N) g) as [[s v] gs].
  cbn [fst snd] in *. repeat split; [lia | done | done].
Qed.

(** C8.  In both simulators, at every step [i = 1..N], the new variance is
    the Milstein update of the stored (unclamped) previous variance
    [v_(i-1)]: [v_i = v_(i-1) + kappa (theta - max(v_(i-1),0)) dt
    + Z_v xi sqrt(max(v_(i-1),0) dt) + (xi^2/4) (Z_v^2 - 1) dt], with
    [Z_v = rho Z_S + sqrt(1 - rho^2) Z_indep] built from the two draws of
    the step.  For [simulate_single_path] the variances are the cells of its
    array [v], for [simulate_final_price] the values of its variable [v]. *)
Theorem variance_update_is_milstein (g : G) (i : nat) :
  (1 <= i <= Z.to_nat N)%nat ->
  let Z_v := correlated_shock rho (Z_S_at next_normal g i) (Z_indep_at next_normal g i) in
  (exists v_prev : float,
     (arrays (Z.to_nat N) g).1.2 !! (i - 1)%nat = Some v_prev /\
     (arrays (Z.to_nat N) g).1.2 !! i
       = Some (milstein_variance kappa theta xi dt v_prev Z_v)) /\
  (state i g).1.2 = milstein_variance kappa theta xi dt (state (i - 1) g).1.2 Z_v.
Proof.
  intros Hi Z_v.
  destruct (arrays_trajectory (Z.to_nat N) g) as (_ & _ & _ & Hcells); [lia | lia |].
  destruct (Hcells (i - 1)%nat) as [_ Hprev]; [lia|].
  destruct (Hcells i) as [_ Hcur]; [lia|].
  destruct (final_price_state_step (i - 1) g) as [_ Hv].
  replace (S (i - 1)) with i in Hv by lia.
  split; [|exact Hv].
  exists (state (i - 1) g).1.2. split; [exact Hprev|].
  rewrite Hcur. f_equal. exact Hv.
Qed.

(** C1, amended.  In both simulators, at every step [i = 1..N], the price
    update uses the pre-update variance [v_(i-1)]: as stored (unclamped) in
    the drift, clamped to zero under the square root:
    [S_i = S_(i-1) exp((r - v_(i-1)/2) dt + Z_S sqrt(max(v_(i-1),0) dt))]. *)
Theorem price_update_uses_stored_variance_in_drift (g : G) (i : nat) :
  (1 <= i <= Z.to_nat N)%nat ->
  let Z_S := Z_S_at next_normal g i in
  (exists S_prev v_prev : float,
     (arrays (Z.to_nat N) g).1.1 !! (i - 1)%nat = Some S_prev /\
     (arrays (Z.to_nat N) g).1.2 !! (i - 1)%nat = Some v_prev /\
     (arrays (Z.to_nat N) g).1.1 !! i = Some (price_update r dt S_prev v_prev Z_S)) /\
  (state i g).1.1 = price_update r dt (state (i - 1) g).1.1 (state (i - 1) g).1.2 Z_S.
Proof.
  intros Hi Z_S.
  destruct (arrays_trajectory (Z.to_nat N) g) as (_ & _ & _ & Hcells); [lia | lia |].
  destruct (Hcells (i - 1)%nat) as [HSprev Hvprev]; [lia|].
  destruct (Hcells i) as [HScur _]; [lia|].
  destruct (final_price_state_step (i - 1) g) as [HS _].
  replace (S (i - 1)) with i in HS by lia.
  split; [|exact HS].
  exists (state (i - 1) g).1.1, (state (i - 1) g).1.2.
  repeat split; [exact HSprev | exact Hvprev |].
  rewrite HScur. f_equal. exact HS.
Qed.

End PathSimulatorFacts.

(** ** Random source: draws come in pairs *)

Section RandomSourceFacts.
Context `{Libm}.

(** Two consecutive normal draws leave the spare slot as empty, or as
    full, as they found it. *)
Lemma step_draws_has_spare (g : Rng) :
  has_spare (step_draws normal_random g).2 = has_spare g.
Proof.
  unfold step_draws, normal_random. destruct g as [seed [] sp]; reflexivity.
Qed.

Lemma source_after_has_spare (k : nat) (g : Rng) :
  has_spare (source_after normal_random k g) = has_spare g.
Proof.
  revert g. induction k as [|k IH]; intros g; [done|].
  simpl. by rewrite IH, step_draws_has_spare.
Qed.

Lemma simulate_single_path_has_spare (S0 v0 r theta kappa xi rho T : float) (N : Z) (g : Rng) :
  has_spare (simulate_single_path normal_random S0 v0 r theta kappa xi rho T N g).2
  = has_spare g.
Proof.
  unfold simulate_single_path.
  pose proof (single_path_state_source normal_random S0 v0 r theta kappa xi rho T N
                (Z.to_nat N) g) as Hsrc.
  destruct (single_path_state _ _ _ _ _ _ _ _ _ _ _ _) as [[Sa va] g'].
  cbn [snd] in *. subst g'. apply source_after_has_spare.
Qed.

Lemma simulate_final_price_has_spare (S0 v0 r theta kappa xi rho T : float) (N : Z) (g : Rng) :
  has_spare (simulate_final_price normal_random S0 v0 r theta kappa xi rho T N g).2
  = has_spare g.
Proof.
  unfold simulate_final_price.
  pose proof (final_price_state_source normal_random S0 v0 r theta kappa xi rho T N
                (Z.to_nat N) g) as Hsrc.
  destruct (final_price_state _ _ _ _ _ _ _ _ _ _ _ _) as [[s v] g'].
  cbn [snd] in *. subst g'. apply source_after_has_spare.
Qed.

End RandomSourceFacts.


(** ** Sorted lists *)

Lemma StronglySorted_lookup {A : Type} (R : A -> A -> Prop) (l : list A)
    (i j : nat) (a b : A) :
  StronglySorted R l -> (i < j)%nat -> l !! i = Some a -> l !! j = Some b -> R a b.
Proof.
  intros Hs. revert i j. induction Hs as [|x l Hs IH Hall]; intros i j Hij Hi Hj; [done|].
  destruct j as [|j]; [lia|]. destruct i as [|i].
  - simpl in Hi, Hj. injection Hi as ->.
    rewrite Forall_forall in Hall. apply Hall. by eapply list_elem_of_lookup_2.
  - simpl in Hi, Hj. apply (IH i j); [lia | done | done].
Qed.

Lemma StronglySorted_weaken {A : Type} (R R' : A -> A -> Prop) (l : list A) :
  (forall a b, a ∈ l -> b ∈ l -> R a b -> R' a b) ->
  StronglySorted R l -> StronglySorted R' l.
Proof.
  intros Himp Hs. induction Hs as [|x l Hs IH Hall]; [constructor|].
  constructor.
  - apply IH. intros a b Ha Hb. apply Himp; by apply list_elem_of_further.
  - rewrite Forall_forall in *. intros b Hb.
    apply Himp; [apply list_elem_of_here | by apply list_elem_of_further | by apply Hall].
Qed.

(** ** [compare_paths] is a consistent comparison when no final price is NaN *)

Lemma compare_paths_le (a b : PricePath) :
  is_nan (final_price a) = false -> is_nan (final_price b) = false ->
  compare_paths a b <= 0 <-> terminal_le a b.
Proof.
  intros Ha Hb. unfold compare_paths, terminal_le.
  destruct (final_price a <? final_price b)%float eqn:Hlt.
  - split; [intros _; by apply ltb_leb | lia].
  - destruct (final_price b <? final_price a)%float eqn:Hgt.
    + split; [lia|]. intros Hle. apply leb_not_ltb in Hle. congruence.
    + split; [intros _; by apply not_ltb_leb | lia].
Qed.

Lemma compare_paths_consistent (l : list PricePath) :
  no_nan_terminal l -> consistent_on compare_paths l.
Proof.
  unfold no_nan_terminal. rewrite Forall_forall. intros Hnan. split.
  - intros a b Ha Hb. unfold compare_paths.
    destruct (final_price a <? final_price b)%float; [left; lia|].
    destruct (final_price b <? final_price a)%float; [right; lia | left; lia].
  - intros a b c Ha Hb Hc.
    rewrite !compare_paths_le by auto. unfold terminal_le. apply leb_trans.
Qed.

(** ** Simulation driver *)

Lemma wrap_int_small (z : Z) : - 2 ^ 31 <= z <= INT_MAX -> wrap_int z = z.
Proof. unfold wrap_int, INT_MAX. intros Hz. rewrite Z.mod_small; lia. Qed.

Section DriverFacts.
Context `{Libm}.
Variable qsort : list PricePath -> (PricePath -> PricePath -> Z) -> list PricePath.

(** The contract of [qsort]: the result is a rearrangement of the array,
    in ascending order for a consistent comparison function. *)
Hypothesis qsort_permutes : forall l cmp, Permutation (qsort l cmp) l.
Hypothesis qsort_sorts : forall l cmp,
  consistent_on cmp l -> StronglySorted (fun a b => cmp a b <= 0) (qsort l cmp).

Local Abbreviation iteration := (batch_iteration qsort).
Local Abbreviation iterations := (for_loop (fun _ : nat => batch_iteration qsort) 0).

(** *** The spare slot is empty between operations *)

Lemma batch_iteration_has_spare (w : World) :
  has_spare (rng (iteration w)) = has_spare (rng w).
Proof.
  unfold batch_iteration.
  destruct (negb (tracking_phase (sim_state w) =? 0) && _).
  - pose proof (simulate_single_path_has_spare (S0 (sim_state w)) (v0 (sim_state w))
      (r (sim_state w)) (theta (sim_state w)) (kappa (sim_state w)) (xi (sim_state w))
      (rho (sim_state w)) (T (sim_state w)) (N (sim_state w)) (rng w)) as Hsp.
    by destruct (simulate_single_path _ _ _ _ _ _ _ _ _ _ _) as [p g].
  - pose proof (simulate_final_price_has_spare (S0 (sim_state w)) (v0 (sim_state w))
      (r (sim_state w)) (theta (sim_state w)) (kappa (sim_state w)) (xi (sim_state w))
      (rho (sim_state w)) (T (sim_state w)) (N (sim_state w)) (rng w)) as Hsp.
    by destruct (simulate_final_price _ _ _ _ _ _ _ _ _ _ _) as [p g].
Qed.

Lemma iterations_has_spare (k : nat) (w : World) :
  has_spare (rng (iterations k w)) = has_spare (rng w).
Proof.
  induction k as [|k IH]; [done|].
  by rewrite for_loop_snoc, batch_iteration_has_spare.
Qed.

Lemma reachable_no_spare (w : World) :
  reachable qsort w -> has_spare (rng w) = false.
Proof.
  induction 1 as [|w now a0 a1 a2 a3 a4 a5 a6 a7 a8 n0 _ IH _|w n _ IH _]; [done|done|].
  unfold run_simulation_batch. cbn [rng]. by rewrite iterations_has_spare.
Qed.

(** *** Stored paths and indices *)

Lemma store_path_inv (p : list float) (x : float) (s : SimulationState) :
  state_inv s -> tracking_phase s <> 0 ->
  length p = Z.to_nat (N s + 1) -> p !! Z.to_nat (N s) = Some x ->
  state_inv (store_path p s) /\ tracking_phase (store_path p s) = tracking_phase s.
Proof.
  intros Hinv Htr Hp Hx. pose proof Hinv as (HN & HM & Hlen & Hle & Hst & Hidx).
  unfold store_path. destruct (paths_stored s <? MAX_PERCENTILE_PATHS) eqn:Hcap.
  2: { by split. }
  apply Z.ltb_lt in Hcap. specialize (Hlen Htr).
  unfold MAX_PERCENTILE_PATHS in *.
  split; [|done]. unfold state_inv, stored_paths in *. cbn [N paths_stored tracking_phase all_paths].
  rewrite length_insert. repeat split; try lia; try done.
  replace (Z.to_nat (paths_stored s + 1)) with (S (Z.to_nat (paths_stored s))) by lia.
  rewrite (take_S_r _ _ {| path := Some p; final_price := p !!! Z.to_nat (N s) |})
    by (apply list_lookup_insert_eq; lia).
  rewrite take_insert_ge by lia.
  apply Forall_app. split; [done|]. constructor; [|constructor].
  exists p. cbn [path final_price]. repeat split; [done|].
  by rewrite (list_lookup_total_correct _ _ _ Hx).
Qed.

Lemma exit_tracking_stored (s : SimulationState) :
  (Z.to_nat (paths_stored s) <= length (all_paths s))%nat ->
  (simulation_count s >=? PERCENTILE_TRACKING_LIMIT - 1) = true ->
  stored_paths (exit_tracking qsort s) = qsort (stored_paths s) compare_paths /\
  length (all_paths (exit_tracking qsort s)) = length (all_paths s).
Proof.
  intros Hle Hc. unfold exit_tracking, stored_paths. rewrite Hc.
  cbn [all_paths paths_stored].
  assert (Hq : length (qsort (take (Z.to_nat (paths_stored s)) (all_paths s)) compare_paths)
               = Z.to_nat (paths_stored s)).
  { rewrite (Permutation_length (qsort_permutes _ _)), length_take. lia. }
  split.
  - by rewrite take_app_length'.
  - rewrite length_app, Hq, length_drop. lia.
Qed.

Lemma exit_tracking_inv (s : SimulationState) :
  state_inv s -> state_inv (exit_tracking qsort s).
Proof.
  intros Hinv.
  destruct (simulation_count s >=? PERCENTILE_TRACKING_LIMIT - 1) eqn:Hc.
  2: { unfold exit_tracking. by rewrite Hc. }
  destruct Hinv as (HN & HM & Hlen & Hle & Hst & Hidx).
  destruct (exit_tracking_stored s Hle Hc) as [Hstored Hlength].
  unfold state_inv. rewrite Hstored, Hlength.
  unfold exit_tracking. rewrite Hc. cbn [N paths_stored tracking_phase].
  split; [lia|]. split; [lia|]. split; [done|]. split; [lia|].
  split; [by rewrite (qsort_permutes _ _) | by intros _ _].
Qed.

Lemma exit_tracking_sorted (s : SimulationState) :
  state_inv s -> tracking_phase s <> 0 -> sorted_inv (exit_tracking qsort s).
Proof.
  intros Hinv Htr.
  destruct (simulation_count s >=? PERCENTILE_TRACKING_LIMIT - 1) eqn:Hc.
  2: { unfold exit_tracking. rewrite Hc. intros Hz. done. }
  destruct Hinv as (HN & HM & Hlen & Hle & Hst & Hidx).
  destruct (exit_tracking_stored s Hle Hc) as [Hstored Hlength].
  unfold sorted_inv. rewrite Hstored. intros _ _ Hnan.
  assert (Hnan' : no_nan_terminal (stored_paths s)).
  { unfold no_nan_terminal in *. by rewrite <- (qsort_permutes _ compare_paths). }
  apply (StronglySorted_weaken (fun a b => compare_paths a b <= 0)).
  - unfold no_nan_terminal in Hnan. rewrite Forall_forall in Hnan.
    intros a b Ha Hb. apply compare_paths_le; auto.
  - apply qsort_sorts. by apply compare_paths_consistent.
Qed.

(** What the tracking branch of an iteration knows of the path it has
    simulated. *)
Lemma tracking_branch_path (s : SimulationState) (g : Rng) :
  state_inv s ->
  let p := (simulate_single_path normal_random (S0 s) (v0 s) (r s) (theta s) (kappa s)
              (xi s) (rho s) (T s) (N s) g).1 in
  length p = Z.to_nat (N s + 1) /\ exists x, p !! Z.to_nat (N s) = Some x.
Proof.
  intros (HN & _) p. apply simulate_single_path_shape. lia.
Qed.

Lemma batch_iteration_inv (w : World) :
  state_inv (sim_state w) -> state_inv (sim_state (iteration w)).
Proof.
  intros Hinv. unfold batch_iteration.
  destruct (negb (tracking_phase (sim_state w) =? 0) && _) eqn:Hcond.
  - apply andb_true_iff in Hcond as [Htr _].
    apply negb_true_iff, Z.eqb_neq in Htr.
    destruct (tracking_branch_path (sim_state w) (rng w) Hinv) as (Hlen & x & Hlast).
    destruct (simulate_single_path _ _ _ _ _ _ _ _ _ _ _) as [p g].
    cbn [fst] in Hlen, Hlast. cbn [sim_state].
    destruct (store_path_inv p _ (sim_state w) Hinv Htr Hlen Hlast) as [Hinv1 Htr1].
    by apply (exit_tracking_inv (add_payoff _ (store_path p (sim_state w)))).
  - by destruct (simulate_final_price _ _ _ _ _ _ _ _ _ _ _) as [x g].
Qed.

Lemma batch_iteration_sorted (w : World) :
  state_inv (sim_state w) -> sorted_inv (sim_state w) ->
  sorted_inv (sim_state (iteration w)).
Proof.
  intros Hinv Hsorted. unfold batch_iteration.
  destruct (negb (tracking_phase (sim_state w) =? 0) && _) eqn:Hcond.
  - apply andb_true_iff in Hcond as [Htr _].
    apply negb_true_iff, Z.eqb_neq in Htr.
    destruct (tracking_branch_path (sim_state w) (rng w) Hinv) as (Hlen & x & Hlast).
    destruct (simulate_single_path _ _ _ _ _ _ _ _ _ _ _) as [p g].
    cbn [fst] in Hlen, Hlast. cbn [sim_state].
    destruct (store_path_inv p _ (sim_state w) Hinv Htr Hlen Hlast) as [Hinv1 Htr1].
    apply (exit_tracking_sorted (add_payoff _ (store_path p (sim_state w))));
      [exact Hinv1 | cbn [tracking_phase add_payoff]; congruence].
  - by destruct (simulate_final_price _ _ _ _ _ _ _ _ _ _ _) as [x g].
Qed.

Lemma iterations_inv (k : nat) (w : World) :
  state_inv (sim_state w) -> state_inv (sim_state (iterations k w)).
Proof.
  intros Hinv. induction k as [|k IH]; [done|].
  rewrite for_loop_snoc. by apply batch_iteration_inv.
Qed.

Lemma iterations_sorted (k : nat) (w : World) :
  state_inv (sim_state w) -> sorted_inv (sim_state w) ->
  sorted_inv (sim_state (iterations k w)).
Proof.
  intros Hinv Hsorted. induction k as [|k IH]; [done|].
  rewrite for_loop_snoc. apply batch_iteration_sorted; [by apply iterations_inv | done].
Qed.

Lemma reachable_inv (w : World) : reachable qsort w -> state_inv (sim_state w).
Proof.
  induction 1 as [|w now a0 a1 a2 a3 a4 a5 a6 a7 a8 n0 _ IH HN|w n _ IH _].
  - unfold state_inv, stored_paths, INT_MAX, MAX_PERCENTILE_PATHS. simpl.
    repeat split; try lia; try done.
  - unfold state_inv, stored_paths, MAX_PERCENTILE_PATHS.
    cbn [sim_state initialize_simulation N paths_stored tracking_phase all_paths].
    rewrite length_replicate. change (Z.to_nat 0) with 0%nat. rewrite take_0.
    repeat split; try lia; try done.
  - apply (iterations_inv (Z.to_nat n) w IH).
Qed.

Lemma reachable_sorted (w : World) : reachable qsort w -> sorted_inv (sim_state w).
Proof.
  induction 1 as [|w now a0 a1 a2 a3 a4 a5 a6 a7 a8 n0 _ IH HN|w n Hw IH _].
  - intros _ Hm; simpl in Hm; lia.
  - intros Htr; simpl in Htr; lia.
  - apply (iterations_sorted (Z.to_nat n) w); [by apply reachable_inv | done].
Qed.

(** *** Phase and counter *)

Lemma store_path_fields (p : list float) (s : SimulationState) :
  simulation_count (store_path p s) = simulation_count s /\
  tracking_phase (store_path p s) = tracking_phase s.
Proof. unfold store_path. by destruct (paths_stored s <? MAX_PERCENTILE_PATHS). Qed.

(** One iteration counts one simulation, and clears the tracking flag
    exactly when it takes the counter from [L - 1] to [L]. *)
Lemma batch_iteration_phase (w : World) :
  phase_inv (sim_state w) -> simulation_count (sim_state w) < INT_MAX ->
  phase_inv (sim_state (iteration w)) /\
  simulation_count (sim_state (iteration w)) = simulation_count (sim_state w) + 1.
Proof.
  intros Hphase Hmax. unfold batch_iteration.
  unfold phase_inv, PERCENTILE_TRACKING_LIMIT in *.
  destruct (negb (tracking_phase (sim_state w) =? 0) && _) eqn:Hcond.
  - apply andb_true_iff in Hcond as [Htr Hlt].
    apply negb_true_iff, Z.eqb_neq in Htr. apply Z.ltb_lt in Hlt.
    destruct (simulate_single_path _ _ _ _ _ _ _ _ _ _ _) as [p g].
    destruct (store_path_fields p (sim_state w)) as [Hc Ht].
    cbn [sim_state]. unfold exit_tracking.
    cbn [simulation_count tracking_phase add_payoff]. rewrite Hc.
    unfold PERCENTILE_TRACKING_LIMIT.
    destruct (simulation_count (sim_state w) >=? 1000 - 1) eqn:Hge;
      cbn [simulation_count tracking_phase count_simulation add_payoff];
      rewrite ?Hc, ?Ht, wrap_int_small by (unfold INT_MAX in *; lia); lia.
  - destruct (simulate_final_price _ _ _ _ _ _ _ _ _ _ _) as [x g].
    cbn [sim_state simulation_count tracking_phase count_simulation add_payoff].
    rewrite wrap_int_small by (unfold INT_MAX in *; lia).
    apply andb_false_iff in Hcond as [Htr|Hlt].
    + apply negb_false_iff, Z.eqb_eq in Htr. lia.
    + apply Z.ltb_ge in Hlt. lia.
Qed.

Lemma iterations_phase (k : nat) (w : World) :
  phase_inv (sim_state w) -> simulation_count (sim_state w) + Z.of_nat k <= INT_MAX ->
  phase_inv (sim_state (iterations k w)) /\
  simulation_count (sim_state (iterations k w)) = simulation_count (sim_state w) + Z.of_nat k.
Proof.
  intros Hphase. induction k as [|k IH]; intros Hmax.
  - split; [done | simpl; lia].
  - destruct IH as [IH1 IH2]; [lia|]. rewrite for_loop_snoc.
    destruct (batch_iteration_phase (iterations k w) IH1) as [H1 H2]; [lia|].
    split; [done|]. cbn [Nat.add] in *. lia.
Qed.

Lemma run_simulation_batch_phase (n : Z) (w : World) :
  phase_inv (sim_state w) -> simulation_count (sim_state w) + Z.max 0 n <= INT_MAX ->
  phase_inv (sim_state (run_simulation_batch qsort n w)) /\
  simulation_count (sim_state (run_simulation_batch qsort n w))
    = simulation_count (sim_state w) + Z.max 0 n.
Proof.
  intros Hphase Hmax. unfold run_simulation_batch. cbn [sim_state].
  destruct (iterations_phase (Z.to_nat n) w Hphase) as [H1 H2]; [lia|].
  split; [exact H1|]. cbn [simulation_count update_option_price]. lia.
Qed.

Lemma running_phase (w : World) : running qsort w -> phase_inv (sim_state w).
Proof.
  induction 1 as [w now a0 a1 a2 a3 a4 a5 a6 a7 a8 n0 _ _|w n _ IH Hmax].
  - left. unfold PERCENTILE_TRACKING_LIMIT. simpl. lia.
  - by apply run_simulation_batch_phase.
Qed.

(** *** Batches of size zero or less *)

Lemma run_simulation_batch_nonpositive (batch_size : Z) (w : World) :
  batch_size <= 0 ->
  run_simulation_batch qsort batch_size w
  = {| sim_state := update_option_price (sim_state w); rng := rng w |}.
Proof.
  intros Hn. unfold run_simulation_batch.
  by replace (Z.to_nat batch_size) with 0%nat by lia.
Qed.

(** C2 fails on the code.  A batch of size zero or less ([- k] for a
    natural [k]) runs no iteration but still recomputes the price as
    [exp(-r T) * (total_payoffs / simulation_count)].  Right after
    [initialize_simulation] the counter is zero and the quotient is
    [0.0 / 0]: the option price, which was [0.0], becomes NaN, whatever the
    parameters and whatever [exp] returns. *)
Theorem zero_batch_after_initialize_gives_nan (k : nat) (now : Z)
    (S0 v0 r theta kappa xi rho T K : float) (N : Z) (w : World) :
  let w0 := initialize_simulation now S0 v0 r theta kappa xi rho T K N w in
  let w1 := run_simulation_batch qsort (- Z.of_nat k) w0 in
  get_simulation_count w1 = 0 /\
  get_option_price w0 = 0%float /\
  get_option_price w1 = nan.
Proof.
  intros w0 w1. unfold w1. rewrite run_simulation_batch_nonpositive by lia.
  repeat split. unfold get_option_price, w0. cbn.
  change (0 / double_of_int 0)%float with nan. apply mul_nan_r.
Qed.

(** With a non-zero counter the recomputation is harmless: a batch of size
    zero or less changes nothing but the price, and leaves the price as the
    previous batch computed it. *)
Lemma nonpositive_batch_after_batch (batch_size n : Z) (w : World) :
  batch_size <= 0 ->
  run_simulation_batch qsort batch_size (run_simulation_batch qsort n w)
  = run_simulation_batch qsort n w.
Proof.
  intros Hn. rewrite run_simulation_batch_nonpositive by done.
  unfold run_simulation_batch. reflexivity.
Qed.

(** *** Phase transition *)

(** C3.  In a run (after [initialize_simulation], through any batches that
    keep the counter an [int]), [is_tracking_phase] is non-zero exactly
    when the simulation count is below the limit [L = 1000] and zero
    exactly when it is [L] or more.  This holds before and after every
    batch and after every iteration inside it; the flag, once cleared,
    stays cleared, and the batch that clears it is the one during which the
    count reaches [L]. *)
Theorem phase_transition_exact (w : World) (batch_size : Z) :
  running qsort w ->
  simulation_count (sim_state w) + Z.max 0 batch_size <= INT_MAX ->
  let L := PERCENTILE_TRACKING_LIMIT in
  let w' := run_simulation_batch qsort batch_size w in
  (is_tracking_phase w <> 0 <-> get_simulation_count w < L) /\
  (is_tracking_phase w = 0 <-> L <= get_simulation_count w) /\
  get_simulation_count w' = get_simulation_count w + Z.max 0 batch_size /\
  (is_tracking_phase w' <> 0 <-> get_simulation_count w' < L) /\
  (is_tracking_phase w' = 0 <-> L <= get_simulation_count w') /\
  (is_tracking_phase w = 0 -> is_tracking_phase w' = 0) /\
  (is_tracking_phase w <> 0 /\ is_tracking_phase w' = 0 <->
   get_simulation_count w < L <= get_simulation_count w') /\
  (forall k : nat, (k <= Z.to_nat batch_size)%nat ->
     let wk := iterations k w in
     get_simulation_count wk = get_simulation_count w + Z.of_nat k /\
     (is_tracking_phase wk <> 0 <-> get_simulation_count wk < L)).
Proof.
  intros Hrun Hmax L w'.
  pose proof (running_phase w Hrun) as Hphase.
  destruct (run_simulation_batch_phase batch_size w Hphase Hmax) as [Hphase' Hcount'].
  unfold is_tracking_phase, get_simulation_count, w', L.
  rewrite Hcount'.
  unfold phase_inv in *. rewrite Hcount' in Hphase'.
  do 7 (split; [lia|]).
  intros k Hk. destruct (iterations_phase k w Hphase) as [Hp Hc]; [lia|].
  unfold phase_inv in Hp. cbn zeta. lia.
Qed.

(** *** Percentile indices *)

Lemma percentile_positions (M : Z) :
  0 < M ->
  0 <= M / 4 /\ M / 4 <= M / 2 /\ M / 2 <= (3 * M) / 4 /\ (3 * M) / 4 <= M - 1.
Proof. intros HM. Z.div_mod_to_equations. lia. Qed.

Lemma stored_lookup (s : SimulationState) (i : Z) :
  state_inv s -> 0 <= i < paths_stored s ->
  exists e : PricePath,
    all_paths s !! Z.to_nat i = Some e /\
    stored_paths s !! Z.to_nat i = Some e /\
    stored_ok (N s) e.
Proof.
  intros (_ & _ & _ & Hle & Hst & _) Hi.
  destruct (lookup_lt_is_Some_2 (all_paths s) (Z.to_nat i)) as [e He]; [lia|].
  assert (Hs : stored_paths s !! Z.to_nat i = Some e).
  { unfold stored_paths. rewrite lookup_take_lt by lia. exact He. }
  exists e. repeat split; [done | done |].
  rewrite Forall_forall in Hst. apply Hst. by eapply list_elem_of_lookup_2.
Qed.

Lemma sorted_le_lookup (l : list PricePath) (i j : nat) (a b : PricePath) :
  StronglySorted terminal_le l -> no_nan_terminal l -> (i <= j)%nat ->
  l !! i = Some a -> l !! j = Some b -> terminal_le a b.
Proof.
  intros Hs Hnan Hij Ha Hb.
  destruct (decide (i = j)) as [->|Hne].
  - assert (a = b) as -> by congruence.
    unfold no_nan_terminal in Hnan. rewrite Forall_forall in Hnan.
    apply leb_refl, Hnan. by eapply list_elem_of_lookup_2.
  - apply (StronglySorted_lookup terminal_le l i j); [done | lia | done | done].
Qed.

Lemma percentile_index_Some (percentile : Z) (s : SimulationState) (idx : Z) :
  percentile_index percentile s = Some idx <->
  (percentile = 0 /\ idx = min_idx s) \/
  (percentile = 25 /\ idx = p25_idx s) \/
  (percentile = 50 /\ idx = p50_idx s) \/
  (percentile = 75 /\ idx = p75_idx s) \/
  (percentile = 100 /\ idx = max_idx s).
Proof.
  unfold percentile_index.
  do 5 (case_percentile;
        [split; [intros [= <-]; auto 6 | intros Hc; f_equal; lia]|]).
  split; [done | lia].
Qed.

Lemma percentile_index_None (percentile : Z) (s : SimulationState) :
  percentile_index percentile s = None <-> percentile ∉ [0; 25; 50; 75; 100].
Proof.
  rewrite !not_elem_of_cons. unfold percentile_index.
  do 5 (case_percentile; [split; [done | tauto]|]).
  split; [|done]. intros _. repeat split; try done. apply not_elem_of_nil.
Qed.

(** The index a recognised percentile selects, once tracking is over and
    some path is stored, is within the stored paths. *)
Lemma percentile_index_range (s : SimulationState) (percentile idx : Z) :
  state_inv s -> tracking_phase s = 0 -> 0 < paths_stored s ->
  percentile_index percentile s = Some idx ->
  0 <= idx < paths_stored s.
Proof.
  intros Hinv Htr HM Hidx.
  destruct Hinv as (_ & _ & _ & _ & _ & Hok).
  destruct (Hok Htr HM) as (H0 & H25 & H50 & H75 & H100).
  pose proof (percentile_positions _ HM).
  apply percentile_index_Some in Hidx. lia.
Qed.

(** C6, amended.  Once the tracking phase is over, for a stored cohort of
    size [M > 0], the five indices are [0], [M/4], [M/2], [3M/4] and
    [M - 1] (integer division).  Provided no stored terminal price is NaN,
    the stored cohort is sorted by terminal price ascending and the
    terminal prices at the five indices are in ascending order. *)
Theorem percentile_indices_sorted (w : World) :
  reachable qsort w ->
  is_tracking_phase w = 0 ->
  0 < paths_stored (sim_state w) ->
  let s := sim_state w in
  let M := paths_stored s in
  min_idx s = 0 /\ p25_idx s = M / 4 /\ p50_idx s = M / 2 /\
  p75_idx s = (3 * M) / 4 /\ max_idx s = M - 1 /\
  (no_nan_terminal (stored_paths s) ->
   StronglySorted terminal_le (stored_paths s) /\
   exists e0 e25 e50 e75 e100 : PricePath,
     all_paths s !! Z.to_nat (min_idx s) = Some e0 /\
     all_paths s !! Z.to_nat (p25_idx s) = Some e25 /\
     all_paths s !! Z.to_nat (p50_idx s) = Some e50 /\
     all_paths s !! Z.to_nat (p75_idx s) = Some e75 /\
     all_paths s !! Z.to_nat (max_idx s) = Some e100 /\
     (final_price e0 <=? final_price e25)%float = true /\
     (final_price e25 <=? final_price e50)%float = true /\
     (final_price e50 <=? final_price e75)%float = true /\
     (final_price e75 <=? final_price e100)%float = true).
Proof.
  intros Hreach Htr HM s M. subst M s.
  pose proof (reachable_inv w Hreach) as Hinv.
  pose proof (reachable_sorted w Hreach) as Hsorted.
  pose proof Hinv as (_ & _ & _ & _ & _ & Hok).
  destruct (Hok Htr HM) as (H0 & H25 & H50 & H75 & H100).
  do 5 (split; [done|]).
  intros Hnan. specialize (Hsorted Htr HM Hnan). split; [done|].
  pose proof (percentile_positions _ HM) as Hpos.
  destruct (stored_lookup _ (min_idx (sim_state w)) Hinv) as (e0 & Ha0 & Hs0 & _); [lia|].
  destruct (stored_lookup _ (p25_idx (sim_state w)) Hinv) as (e25 & Ha25 & Hs25 & _); [lia|].
  destruct (stored_lookup _ (p50_idx (sim_state w)) Hinv) as (e50 & Ha50 & Hs50 & _); [lia|].
  destruct (stored_lookup _ (p75_idx (sim_state w)) Hinv) as (e75 & Ha75 & Hs75 & _); [lia|].
  destruct (stored_lookup _ (max_idx (sim_state w)) Hinv) as (e100 & Ha100 & Hs100 & _); [lia|].
  exists e0, e25, e50, e75, e100. do 5 (split; [done|]).
  assert (Hle : forall (i j : Z) (a b : PricePath),
    0 <= i <= j ->
    stored_paths (sim_state w) !! Z.to_nat i = Some a ->
    stored_paths (sim_state w) !! Z.to_nat j = Some b -> terminal_le a b).
  { intros i j a b Hij. apply (sorted_le_lookup _ _ _ _ _ Hsorted Hnan). lia. }
  repeat split.
  - apply (Hle _ _ _ _) with (2 := Hs0) (3 := Hs25). lia.
  - apply (Hle _ _ _ _) with (2 := Hs25) (3 := Hs50). lia.
  - apply (Hle _ _ _ _) with (2 := Hs50) (3 := Hs75). lia.
  - apply (Hle _ _ _ _) with (2 := Hs75) (3 := Hs100). lia.
Qed.

(** *** The percentile accessor *)

Lemma array_read_lookup {A : Type} (l : list A) (i : Z) (a : A) :
  0 <= i -> l !! Z.to_nat i = Some a -> array_read l i = Value a.
Proof.
  intros Hi Ha. unfold array_read.
  destruct (i <? 0) eqn:E; [apply Z.ltb_lt in E; lia|]. by rewrite Ha.
Qed.

(** C9.  [get_percentile_path] never changes the state.  When the run is
    out of the tracking phase, the stored cohort has [M > 0] entries and
    the percentile is one of 0, 25, 50, 75, 100, it returns the trajectory
    stored at the corresponding percentile index: the index is [min_idx],
    that is [0], for percentile 0; [p25_idx], that is [M/4], for 25;
    [p50_idx], that is [M/2], for 50; [p75_idx], that is [3M/4], for 75; and
    [max_idx], that is [M - 1], for 100.  The entry at that index is one of
    the [M] stored entries, and what is returned is its array of [N + 1]
    prices, the last of which is the cached terminal price.  When the run
    is still tracking, or nothing is stored, or the percentile is not one
    of the five, it returns [NULL]. *)
Theorem get_percentile_path_available (w : World) (percentile : Z) :
  reachable qsort w ->
  (is_tracking_phase w = 0 -> 0 < paths_stored (sim_state w) ->
   percentile ∈ [0; 25; 50; 75; 100] ->
   exists (idx : Z) (e : PricePath) (t : list float),
     percentile_index percentile (sim_state w) = Some idx /\
     ((percentile = 0 /\ idx = min_idx (sim_state w) /\ idx = 0) \/
      (percentile = 25 /\ idx = p25_idx (sim_state w) /\
       idx = paths_stored (sim_state w) / 4) \/
      (percentile = 50 /\ idx = p50_idx (sim_state w) /\
       idx = paths_stored (sim_state w) / 2) \/
      (percentile = 75 /\ idx = p75_idx (sim_state w) /\
       idx = (3 * paths_stored (sim_state w)) / 4) \/
      (percentile = 100 /\ idx = max_idx (sim_state w) /\
       idx = paths_stored (sim_state w) - 1)) /\
     0 <= idx < paths_stored (sim_state w) /\
     all_paths (sim_state w) !! Z.to_nat idx = Some e /\
     stored_paths (sim_state w) !! Z.to_nat idx = Some e /\
     path e = Some t /\
     length t = Z.to_nat (N (sim_state w) + 1) /\
     t !! Z.to_nat (N (sim_state w)) = Some (final_price e) /\
     get_percentile_path percentile w = (Value (Some t), w)) /\
  (is_tracking_phase w <> 0 \/ paths_stored (sim_state w) <= 0 \/
   percentile ∉ [0; 25; 50; 75; 100] ->
   get_percentile_path percentile w = (Value None, w)).
Proof.
  intros Hreach. pose proof (reachable_inv w Hreach) as Hinv. split.
  - intros Htr HM Hp.
    destruct (percentile_index percentile (sim_state w)) as [idx|] eqn:Hidx.
    2: { apply percentile_index_None in Hidx. done. }
    pose proof (percentile_index_range _ _ _ Hinv Htr HM Hidx) as Hrange.
    destruct (stored_lookup _ idx Hinv Hrange) as (e & He & Hs & t & Ht & Hlen & Hlast).
    exists idx, e, t. split; [done|]. split.
    { pose proof Hinv as (_ & _ & _ & _ & _ & Hok).
      destruct (Hok Htr HM) as (H0 & H25 & H50 & H75 & H100).
      apply percentile_index_Some in Hidx.
      destruct Hidx as [[-> ->]|[[-> ->]|[[-> ->]|[[-> ->]|[-> ->]]]]]; auto 10. }
    do 6 (split; [done|]).
    unfold get_percentile_path. unfold is_tracking_phase in Htr. rewrite Htr, Hidx.
    replace (paths_stored (sim_state w) >? 0) with true by (symmetry; apply Z.gtb_lt; lia).
    cbn [Z.eqb andb]. by rewrite (array_read_lookup _ _ e), Ht by (lia || done).
  - intros Hcase. unfold get_percentile_path, is_tracking_phase in *.
    destruct (tracking_phase (sim_state w) =? 0) eqn:Etr; [|done].
    destruct (paths_stored (sim_state w) >? 0) eqn:EM; [|done].
    apply Z.eqb_eq in Etr. apply Z.gtb_lt in EM. cbn [andb].
    destruct Hcase as [?|[?|Hp]]; [done | lia |].
    apply (percentile_index_None _ (sim_state w)) in Hp. by rewrite Hp.
Qed.

(** C10.  Out of the tracking phase and with [M > 0] stored paths, each of
    [0], [M/4], [M/2], [3M/4] and [M - 1] lies in [[0, M)]; the index that
    [get_percentile_path] looks up for a recognised percentile is one of
    them, and the cell it reads is one of the [M] stored paths. *)
Theorem percentile_lookup_in_bounds (w : World) (percentile idx : Z) :
  reachable qsort w ->
  is_tracking_phase w = 0 ->
  0 < paths_stored (sim_state w) ->
  percentile_index percentile (sim_state w) = Some idx ->
  let M := paths_stored (sim_state w) in
  (0 <= 0 < M /\ 0 <= M / 4 < M /\ 0 <= M / 2 < M /\
   0 <= (3 * M) / 4 < M /\ 0 <= M - 1 < M) /\
  idx ∈ [0; M / 4; M / 2; (3 * M) / 4; M - 1] /\
  0 <= idx < M /\
  (Z.to_nat M <= length (all_paths (sim_state w)))%nat /\
  exists e : PricePath,
    array_read (all_paths (sim_state w)) idx = Value e /\
    e ∈ stored_paths (sim_state w).
Proof.
  intros Hreach Htr HM Hidx M. subst M.
  pose proof (reachable_inv w Hreach) as Hinv.
  pose proof (percentile_positions _ HM) as Hpos.
  pose proof (percentile_index_range _ _ _ Hinv Htr HM Hidx) as Hrange.
  pose proof Hinv as (_ & _ & _ & Hle & _ & Hok).
  destruct (Hok Htr HM) as (H0 & H25 & H50 & H75 & H100).
  split; [lia|]. split.
  - apply percentile_index_Some in Hidx. rewrite !elem_of_cons.
    destruct Hidx as [[_ ->]|[[_ ->]|[[_ ->]|[[_ ->]|[_ ->]]]]]; auto 10.
  - do 2 (split; [done|]).
    destruct (stored_lookup _ idx Hinv Hrange) as (e & He & Hs & _).
    exists e. split; [apply array_read_lookup; [lia | done]|].
    by eapply list_elem_of_lookup_2.
Qed.

(** *** Reseeding *)

(** C4.  After [initialize_simulation], run from any state the exported
    operations reach, no cached Box-Muller spare is pending: none is
    pending before the call, because every path simulation takes its
    normal draws in pairs, and the call, which sets the state of the
    generator to the new seed, leaves the slot as it is.  So the first
    normal draw after [initialize_simulation] is computed fresh from the
    new seed: it is the Box-Muller value of the first two uniform draws of
    that seed, the value a generator just created with that seed returns,
    whatever was cached under the previous seed. *)
Theorem first_draw_after_initialize_is_fresh (w : World) (now : Z)
    (S0 v0 r theta kappa xi rho T K : float) (N : Z) :
  reachable qsort w ->
  let w' := initialize_simulation now S0 v0 r theta kappa xi rho T K N w in
  has_spare (rng w) = false /\
  rng w' = reseed now (rng w) /\
  has_spare (reseed now (rng w)) = has_spare (rng w) /\
  spare (reseed now (rng w)) = spare (rng w) /\
  rand_seed (rng w') = wrap_ulong now /\
  (normal_random (rng w')).1 =
    (let (u, g1) := simple_random (rng w') in
     let (v, g2) := simple_random g1 in
     sqrt (-2.0 * log u) * sin (2.0 * M_PI * v))%float /\
  has_spare (rng w') = false /\
  (forall cached : float,
     (normal_random (rng w')).1
     = (normal_random {| rand_seed := wrap_ulong now; has_spare := false;
                         spare := cached |}).1).
Proof.
  intros Hreach w'. pose proof (reachable_no_spare w Hreach) as Hsp.
  do 5 (split; [done|]).
  unfold normal_random, w'. cbn [rng initialize_simulation has_spare reseed].
  rewrite Hsp. repeat split.
Qed.

End DriverFacts.

(** ** The reference [qsort] meets the contract *)

Lemma insert_sorted_permutes {A : Type} (cmp : A -> A -> Z) (x : A) (l : list A) :
  Permutation (insert_sorted cmp x l) (x :: l).
Proof.
  induction l as [|y l IH]; [done|]. simpl.
  destruct (cmp x y <=? 0); [done|]. rewrite IH. apply perm_swap.
Qed.

Lemma insertion_sort_permutes {A : Type} (l : list A) (cmp : A -> A -> Z) :
  Permutation (insertion_sort l cmp) l.
Proof.
  induction l as [|x l IH]; [done|].
  unfold insertion_sort in *. simpl. by rewrite insert_sorted_permutes, IH.
Qed.

Lemma insert_sorted_sorts {A : Type} (cmp : A -> A -> Z) (u : list A) (x : A) (l : list A) :
  consistent_on cmp u -> x ∈ u -> l ⊆ u ->
  StronglySorted (fun a b => cmp a b <= 0) l ->
  StronglySorted (fun a b => cmp a b <= 0) (insert_sorted cmp x l).
Proof.
  intros [Htotal Htrans] Hx Hl Hs.
  induction Hs as [|y l Hs IH Hall]; [repeat constructor|].
  assert (Hy : y ∈ u) by (apply Hl, list_elem_of_here).
  assert (Hl' : l ⊆ u) by (intros z Hz; by apply Hl, list_elem_of_further).
  simpl. destruct (cmp x y <=? 0) eqn:Hxy.
  - apply Z.leb_le in Hxy. constructor; [by constructor|].
    constructor; [done|]. rewrite Forall_forall in *. intros z Hz.
    apply (Htrans x y z); auto.
  - apply Z.leb_gt in Hxy. constructor; [by apply IH|].
    rewrite (insert_sorted_permutes cmp x l). constructor; [|done].
    destruct (Htotal x y Hx Hy); [lia | done].
Qed.

Lemma insertion_sort_sorts {A : Type} (l : list A) (cmp : A -> A -> Z) :
  consistent_on cmp l ->
  StronglySorted (fun a b => cmp a b <= 0) (insertion_sort l cmp).
Proof.
  intros Hc.
  enough (Hgen : forall l', l' ⊆ l ->
            StronglySorted (fun a b => cmp a b <= 0) (insertion_sort l' cmp))
    by (by apply Hgen).
  induction l' as [|x l' IH]; intros Hsub; [constructor|].
  unfold insertion_sort in *. simpl.
  apply (insert_sorted_sorts cmp l); [done | apply Hsub, list_elem_of_here | |].
  - intros z Hz. apply Hsub, list_elem_of_further.
    by rewrite <- (insertion_sort_permutes l' cmp).
  - apply IH. intros z Hz. by apply Hsub, list_elem_of_further.
Qed.

(** ** Before the first initialisation *)

(** The static state has the tracking flag clear and nothing stored:
    batches run before any [initialize_simulation] take the fast branch. *)
Lemma initial_world_not_tracking :
  is_tracking_phase initial_world = 0 /\ get_simulation_count initial_world = 0.
Proof. by split. Qed.

(** ** Closed examples *)

(** C1, as stated, fails.  With [S0 = 1], [v0 = 0], [xi = 2], [T = 2],
    [N = 2], every other parameter zero and every normal draw zero, the
    variance after the first step is [-1]; the second price is then
    [exp(0.5)] in both simulators, and not the [exp(0) = 1] that the
    clamped drift gives. *)
Lemma price_drift_uses_negative_variance :
  let L := SeriesLibm.libm in
  let st := single_path_state injected_normal 1 0 0 0 0 2 0 2 2 2 [] in
  let claimed :=
    clamped_price_update 0 (2 / double_of_int 2) 1 (-1) (Z_S_at injected_normal [] 2) in
  st.1.2 !! 1%nat = Some (-1)%float /\
  st.1.1 !! 1%nat = Some 1%float /\
  st.1.1 !! 2%nat = Some (exp 0.5) /\
  (simulate_final_price injected_normal 1 0 0 0 0 2 0 2 2 []).1 = exp 0.5 /\
  claimed = 1%float /\
  st.1.1 !! 2%nat <> Some claimed /\
  (simulate_final_price injected_normal 1 0 0 0 0 2 0 2 2 []).1 <> claimed.
Proof. vm_compute. repeat split; discriminate. Qed.

(** Reseeding by itself does not clear the spare slot.  In a hand-built
    state with a spare pending, a state no execution reaches
    ([reachable_no_spare]), the draw after [initialize_simulation] would
    return the old spare: the freshness of the first draw rests on the
    draws coming in pairs. *)
Lemma reseed_keeps_pending_spare :
  let L := SeriesLibm.libm in
  let g1 := (normal_random {| rand_seed := 1; has_spare := false; spare := 0 |}).2 in
  let w := {| sim_state := sim_state initial_world; rng := g1 |} in
  let g2 := rng (ref_initialize_simulation 42 100 0.25 0 0.25 1 0.5 0 1 100 4 w) in
  has_spare g1 = true /\
  g2 = reseed 42 g1 /\
  has_spare g2 = true /\
  (normal_random g2).1 = spare g1 /\
  rand_seed (normal_random g2).2 = 42.
Proof. by vm_compute. Qed.

(** C5, as stated, fails: from the state 230538014 the next state is
    [2^31 - 1] and the value returned is exactly 1, which is not below 1. *)
Lemma simple_random_reaches_one :
  let g := {| rand_seed := 230538014; has_spare := false; spare := 0 |} in
  rand_seed (simple_random g).2 = 2 ^ 31 - 1 /\
  (simple_random g).1 = 1%float /\
  ((simple_random g).1 <? 1)%float = false.
Proof. by vm_compute. Qed.

(** C6, as stated, fails.  With [S0] a NaN every simulated price is NaN;
    after the 1000 paths of the tracking phase the indices are 0, 250, 500,
    750 and 999, and the terminal prices at the first two are not in
    [<=] order: no comparison with a NaN holds. *)
Lemma nan_terminals_are_not_ordered :
  let w := ref_run_simulation_batch 1000
             (ref_initialize_simulation 0 nan 0.25 0 0.25 1 0.5 0 1 100 1 initial_world) in
  let s := sim_state w in
  is_tracking_phase w = 0 /\ paths_stored s = 1000 /\
  (min_idx s, p25_idx s, p50_idx s, p75_idx s, max_idx s) = (0, 250, 500, 750, 999) /\
  exists e0 e25 : PricePath,
    all_paths s !! Z.to_nat (min_idx s) = Some e0 /\
    all_paths s !! Z.to_nat (p25_idx s) = Some e25 /\
    (final_price e0 <=? final_price e25)%float = false.
Proof.
  do 3 (split; [by vm_compute|]).
  exists {| path := Some [nan; nan]; final_price := nan |},
         {| path := Some [nan; nan]; final_price := nan |}.
  by vm_compute.
Qed.

(** Three batches of 300 leave the run tracking at count 900; the fourth
    takes the count past 1000 and ends the tracking phase. *)
Example batches_of_300 :
  let w3 := ref_run_simulation_batch 300
              (ref_run_simulation_batch 300 (ref_run_simulation_batch 300 example_start)) in
  let w4 := ref_run_simulation_batch 300 w3 in
  (get_simulation_count w3, is_tracking_phase w3, paths_stored (sim_state w3))
    = (900, 1, 900) /\
  (get_simulation_count w4, is_tracking_phase w4, paths_stored (sim_state w4))
    = (1200, 0, 1000).
Proof. by vm_compute. Qed.

(** ** The theorems at concrete inputs *)

Lemma example_start_running : @running SeriesLibm.libm insertion_sort example_start.
Proof. apply run_initialize; [apply reach_start | by vm_compute]. Qed.

Lemma example_run_reachable : @reachable SeriesLibm.libm insertion_sort example_run.
Proof.
  apply reach_batch; [apply reach_initialize; [apply reach_start | by vm_compute]|].
  by vm_compute.
Qed.

Lemma price_update_uses_stored_variance_in_drift_witness :
  (1 <= 2 <= Z.to_nat 2)%nat /\
  (@final_price_state SeriesLibm.libm _ injected_normal 1 0 0 0 0 2 0 2 2 2 []).1.1
  = @price_update SeriesLibm.libm 0 (2 / double_of_int 2)
      (@final_price_state SeriesLibm.libm _ injected_normal 1 0 0 0 0 2 0 2 2 1 []).1.1
      (@final_price_state SeriesLibm.libm _ injected_normal 1 0 0 0 0 2 0 2 2 1 []).1.2
      (Z_S_at injected_normal [] 2).
Proof.
  assert (Hi : (1 <= 2 <= Z.to_nat 2)%nat) by (simpl; lia).
  split; [exact Hi|].
  exact (proj2 (@price_update_uses_stored_variance_in_drift SeriesLibm.libm _
                  injected_normal 1 0 0 0 0 2 0 2 2 [] 2 Hi)).
Defined.

Lemma variance_update_is_milstein_witness :
  (1 <= 2 <= Z.to_nat 2)%nat /\
  (@final_price_state SeriesLibm.libm _ injected_normal 1 0 0 0 0 2 0 2 2 2 []).1.2
  = milstein_variance 0 0 2 (2 / double_of_int 2)
      (@final_price_state SeriesLibm.libm _ injected_normal 1 0 0 0 0 2 0 2 2 1 []).1.2
      (correlated_shock 0 (Z_S_at injected_normal [] 2) (Z_indep_at injected_normal [] 2)).
Proof.
  assert (Hi : (1 <= 2 <= Z.to_nat 2)%nat) by (simpl; lia).
  split; [exact Hi|].
  exact (proj2 (@variance_update_is_milstein SeriesLibm.libm _
                  injected_normal 1 0 0 0 0 2 0 2 2 [] 2 Hi)).
Defined.

Lemma simulate_final_price_is_last_of_path_witness :
  0 <= 2 /\
  (@simulate_single_path SeriesLibm.libm _ injected_normal 1 0 0 0 0 2 0 2 2 []).1 !! 2%nat
  = Some (@simulate_final_price SeriesLibm.libm _ injected_normal 1 0 0 0 0 2 0 2 2 []).1.
Proof.
  assert (HN : 0 <= 2) by lia.
  split; [exact HN|].
  exact (proj1 (proj2 (@simulate_final_price_is_last_of_path SeriesLibm.libm _
                         injected_normal 1 0 0 0 0 2 0 2 2 [] HN))).
Defined.

Lemma phase_transition_exact_witness :
  @running SeriesLibm.libm insertion_sort example_start /\
  simulation_count (sim_state example_start) + Z.max 0 1000 <= INT_MAX /\
  (is_tracking_phase example_start <> 0 <->
   get_simulation_count example_start < PERCENTILE_TRACKING_LIMIT) /\
  (is_tracking_phase example_run = 0 <->
   PERCENTILE_TRACKING_LIMIT <= get_simulation_count example_run).
Proof.
  assert (Hmax : simulation_count (sim_state example_start) + Z.max 0 1000 <= INT_MAX)
    by (by vm_compute).
  split; [exact example_start_running|]. split; [exact Hmax|].
  destruct (@phase_transition_exact SeriesLibm.libm insertion_sort example_start 1000
              example_start_running Hmax) as (H1 & _ & _ & _ & H5 & _).
  split; [exact H1 | exact H5].
Defined.

Lemma first_draw_after_initialize_is_fresh_witness :
  @reachable SeriesLibm.libm insertion_sort example_run /\
  has_spare (rng example_run) = false /\
  rand_seed (rng (ref_initialize_simulation 7 100 0.25 0 0.25 1 0.5 0 1 100 4 example_run))
  = wrap_ulong 7 /\
  has_spare (rng (ref_initialize_simulation 7 100 0.25 0 0.25 1 0.5 0 1 100 4 example_run))
  = false.
Proof.
  split; [exact example_run_reachable|].
  destruct (@first_draw_after_initialize_is_fresh SeriesLibm.libm insertion_sort
              example_run 7 100 0.25 0 0.25 1 0.5 0 1 100 4 example_run_reachable)
    as (H1 & _ & _ & _ & H5 & _ & H7 & _).
  split; [exact H1|]. split; [exact H5 | exact H7].
Defined.

Lemma percentile_indices_sorted_witness :
  @reachable SeriesLibm.libm insertion_sort example_run /\
  is_tracking_phase example_run = 0 /\
  0 < paths_stored (sim_state example_run) /\
  p75_idx (sim_state example_run) = (3 * paths_stored (sim_state example_run)) / 4.
Proof.
  assert (Htr : is_tracking_phase example_run = 0) by (by vm_compute).
  assert (HM : 0 < paths_stored (sim_state example_run)) by (by vm_compute).
  split; [exact example_run_reachable|]. split; [exact Htr|]. split; [exact HM|].
  destruct (@percentile_indices_sorted SeriesLibm.libm insertion_sort
              (fun l cmp => insertion_sort_permutes l cmp)
              (fun l cmp => insertion_sort_sorts l cmp)
              example_run example_run_reachable Htr HM) as (_ & _ & _ & H75 & _).
  exact H75.
Defined.

Lemma get_percentile_path_available_witness :
  @reachable SeriesLibm.libm insertion_sort example_run /\
  (exists (idx : Z) (t : list float),
     idx = p50_idx (sim_state example_run) /\
     idx = paths_stored (sim_state example_run) / 2 /\
     length t = 5%nat /\
     get_percentile_path 50 example_run = (Value (Some t), example_run)) /\
  get_percentile_path 60 example_run = (Value None, example_run).
Proof.
  pose proof (@get_percentile_path_available SeriesLibm.libm insertion_sort
                (fun l cmp => insertion_sort_permutes l cmp)
                example_run) as Hget.
  split; [exact example_run_reachable|]. split.
  - destruct (proj1 (Hget 50 example_run_reachable))
      as (idx & e & t & _ & Hpin & _ & _ & _ & _ & Hlen & _ & Hres).
    + by vm_compute.
    + by vm_compute.
    + rewrite !elem_of_cons. auto.
    + exists idx, t.
      assert (Hidx : idx = p50_idx (sim_state example_run) /\
                     idx = paths_stored (sim_state example_run) / 2).
      { destruct Hpin as [[Hp _]|[[Hp _]|[[_ Hi]|[[Hp _]|[Hp _]]]]];
          [discriminate Hp | discriminate Hp | exact Hi | discriminate Hp | discriminate Hp]. }
      destruct Hidx as [Hi1 Hi2].
      split; [exact Hi1|]. split; [exact Hi2|]. split; [|exact Hres].
      rewrite Hlen. by vm_compute.
  - apply (proj2 (Hget 60 example_run_reachable)).
    right. right. rewrite !not_elem_of_cons.
    repeat split; try lia. apply not_elem_of_nil.
Defined.

Lemma percentile_lookup_in_bounds_witness :
  @reachable SeriesLibm.libm insertion_sort example_run /\
  is_tracking_phase example_run = 0 /\
  0 < paths_stored (sim_state example_run) /\
  percentile_index 75 (sim_state example_run) = Some 750 /\
  0 <= 750 < paths_stored (sim_state example_run).
Proof.
  assert (Htr : is_tracking_phase example_run = 0) by (by vm_compute).
  assert (HM : 0 < paths_stored (sim_state example_run)) by (by vm_compute).
  assert (Hidx : percentile_index 75 (sim_state example_run) = Some 750) by (by vm_compute).
  split; [exact example_run_reachable|]. split; [exact Htr|]. split; [exact HM|].
  split; [exact Hidx|].
  destruct (@percentile_lookup_in_bounds SeriesLibm.libm insertion_sort
              (fun l cmp => insertion_sort_permutes l cmp)
              example_run 75 750 example_run_reachable Htr HM Hidx) as (_ & _ & H & _).
  exact H.
Defined.

(** * Further properties of the code *)

(** ** Payoffs: [fmax] against zero *)

Lemma nonneg_not_nan (x : float) : nonneg x -> is_nan x = false.
Proof. unfold nonneg. rewrite leb_true. tauto. Qed.

Lemma positive_sign (x : float) : (0 <? x)%float = true -> get_sign x = false.
Proof.
  intros Hx. unfold get_sign, is_zero.
  destruct (x =? zero)%float eqn:Hz.
  - exfalso. change zero with 0%float in Hz. revert Hx Hz. rewrite FloatAxioms.ltb_spec, FloatAxioms.eqb_spec.
    change (Prim2SF 0) with (S754_zero false).
    by destruct (Prim2SF x) as [[]|[]| |[] m e].
  - apply leb_not_ltb. by apply ltb_leb.
Qed.

Lemma fmax_zero_cases (x : float) :
  nonneg (fmax x 0) /\
  (is_nan x = true -> fmax x 0 = 0%float) /\
  ((0 <? x)%float = true -> fmax x 0 = x).
Proof.
  unfold fmax, nonneg.
  destruct (is_nan x) eqn:Hnan.
  { repeat split; try done. intros Hx. apply ltb_true in Hx as (_ & Hx & _). congruence. }
  change (is_nan 0) with false. change (get_sign 0) with false. cbv iota.
  destruct (get_sign x) eqn:Hsign.
  - change (negb (Bool.eqb true false)) with true. cbv iota.
    repeat split; try done. intros Hx. apply positive_sign in Hx. congruence.
  - change (negb (Bool.eqb false false)) with false. cbv iota.
    destruct (x <? 0)%float eqn:Hlt.
    + repeat split; try done. intros Hx. apply ltb_leb, leb_not_ltb in Hx. congruence.
    + repeat split; try done. by apply not_ltb_leb.
Qed.

(** ** Sums of values that are not below zero *)

Lemma shr_1_nonneg (mrs : shr_record) : 0 <= shr_m mrs -> 0 <= shr_m (shr_1 mrs).
Proof. destruct mrs as [[|[p|p|]|p] r s]; simpl; lia. Qed.

Lemma iter_pos_shr_1_nonneg (p : positive) (mrs : shr_record) :
  0 <= shr_m mrs -> 0 <= shr_m (SpecFloat.iter_pos shr_1 p mrs).
Proof.
  revert mrs. induction p as [p IH|p IH|]; intros mrs Hm; simpl.
  - by apply IH, IH, shr_1_nonneg.
  - by apply IH, IH.
  - by apply shr_1_nonneg.
Qed.

Lemma shr_fexp_nonneg (m e : Z) (l : location) :
  0 <= m -> 0 <= shr_m (shr_fexp prec emax m e l).1.
Proof.
  intros Hm. unfold shr_fexp, shr.
  destruct (fexp prec emax (Zdigits2 m + e) - e) as [|p|p]; cbn [fst];
    rewrite ?shr_record_of_loc_m; try done.
  apply iter_pos_shr_1_nonneg. by rewrite shr_record_of_loc_m.
Qed.

(** Rounding keeps the sign. *)
Lemma binary_round_aux_nonneg (m e : Z) (l : location) :
  0 <= m -> SFleb (S754_zero false) (binary_round_aux prec emax false m e l) = true.
Proof.
  intros Hm. unfold binary_round_aux.
  pose proof (shr_fexp_nonneg m e l Hm) as H1.
  destruct (shr_fexp prec emax m e l) as [mrs' e']. cbn [fst] in H1.
  pose proof (round_nearest_even_bounds (shr_m mrs') (loc_of_shr_record mrs')) as Hr.
  pose proof (shr_fexp_nonneg (round_nearest_even (shr_m mrs') (loc_of_shr_record mrs'))
                e' loc_Exact) as H2.
  destruct (shr_fexp prec emax _ e' loc_Exact) as [mrs'' e'']. cbn [fst] in H2.
  destruct (shr_m mrs'') as [|p|p]; [done | | lia].
  by destruct (e'' <=? emax - prec).
Qed.

Lemma SFadd_nonneg (x y : spec_float) :
  SFleb (S754_zero false) x = true -> SFleb (S754_zero false) y = true ->
  SFleb (S754_zero false) (SFadd prec emax x y) = true.
Proof.
  destruct x as [[]|[]| |[] mx ex], y as [[]|[]| |[] my ey]; try done.
  intros _ _. unfold SFadd. cbn [cond_Zopp].
  change (Z.pos (shl_align mx ex (Z.min ex ey)).1 + Z.pos (shl_align my ey (Z.min ex ey)).1)
    with (Z.pos ((shl_align mx ex (Z.min ex ey)).1 + (shl_align my ey (Z.min ex ey)).1)).
  unfold binary_normalize, binary_round.
  match goal with
  | |- context [shl_align ?a ?b ?c] =>
      match c with fexp _ _ _ => destruct (shl_align a b c) as [mz ez] end
  end.
  by apply binary_round_aux_nonneg.
Qed.

Lemma add_nonneg (x y : float) : nonneg x -> nonneg y -> nonneg (x + y).
Proof.
  unfold nonneg. rewrite !FloatAxioms.leb_spec, FloatAxioms.add_spec.
  apply SFadd_nonneg.
Qed.

(** ** Products and quotients that are not below zero *)

Lemma SFleb_zero_not_negative (x : spec_float) :
  SFleb (S754_zero false) x = true -> SFltb x (S754_zero false) = false.
Proof. by destruct x as [[]|[]| |[] m e]. Qed.

Lemma binary_round_aux_unsigned (m e : Z) (l : location) :
  0 <= m -> SF_unsigned (binary_round_aux prec emax false m e l).
Proof.
  intros Hm. unfold binary_round_aux.
  pose proof (shr_fexp_nonneg m e l Hm) as H1.
  destruct (shr_fexp prec emax m e l) as [mrs' e']. cbn [fst] in H1.
  pose proof (round_nearest_even_bounds (shr_m mrs') (loc_of_shr_record mrs')) as Hr.
  pose proof (shr_fexp_nonneg (round_nearest_even (shr_m mrs') (loc_of_shr_record mrs'))
                e' loc_Exact) as H2.
  destruct (shr_fexp prec emax _ e' loc_Exact) as [mrs'' e'']. cbn [fst] in H2.
  destruct (shr_m mrs'') as [|p|p]; [done | | lia].
  by destruct (e'' <=? emax - prec).
Qed.

Lemma SF_unsigned_not_negative (x : spec_float) :
  SF_unsigned x -> SFltb x (S754_zero false) = false.
Proof. by destruct x as [[]|[]| |[] m e]. Qed.

Lemma SFmul_not_negative (x y : spec_float) :
  SFltb x (S754_zero false) = false -> SFltb y (S754_zero false) = false ->
  SFltb (SFmul prec emax x y) (S754_zero false) = false.
Proof.
  destruct x as [[]|[]| |[] mx ex], y as [[]|[]| |[] my ey]; try done.
  intros _ _. cbn [SFmul xorb].
  apply SF_unsigned_not_negative, binary_round_aux_unsigned. lia.
Qed.

Lemma SFdiv_not_negative (x y : spec_float) :
  SFleb (S754_zero false) x = true -> SF_unsigned y ->
  SFltb (SFdiv prec emax x y) (S754_zero false) = false.
Proof.
  destruct x as [[]|[]| |[] mx ex], y as [[]|[]| |[] my ey]; try done.
  intros _ _. cbn [SFdiv xorb]. unfold SFdiv_core_binary.
  set (m' := match _ - _ - _ with 0 => Z.pos mx | Z.pos _ => _ | Z.neg _ => 0 end).
  assert (Hm' : 0 <= m').
  { unfold m'. destruct (_ - _ - _) as [|p|p]; [lia | | lia].
    apply Z.shiftl_nonneg. lia. }
  pose proof (Z_div_mod m' (Z.pos my) eq_refl) as Hdiv.
  destruct (Z.div_eucl m' (Z.pos my)) as [q rem].
  apply SF_unsigned_not_negative, binary_round_aux_unsigned. nia.
Qed.

Lemma double_of_int_unsigned (c : Z) : 0 <= c -> SF_unsigned (Prim2SF (double_of_int c)).
Proof.
  intros Hc. unfold double_of_int.
  replace (c <? 0) with false by (symmetry; apply Z.ltb_ge; lia).
  rewrite of_uint63_spec.
  pose proof (Uint63.to_Z_bounded (Uint63.of_Z c)) as Hb.
  unfold binary_normalize.
  destruct (Uint63.to_Z (Uint63.of_Z c)) as [|p|p]; [done | | lia].
  unfold binary_round. destruct (shl_align _ _ _) as [mz ez].
  by apply binary_round_aux_unsigned.
Qed.

Lemma mul_not_negative (x y : float) :
  (x <? 0)%float = false -> (y <? 0)%float = false -> (x * y <? 0)%float = false.
Proof.
  rewrite !FloatAxioms.ltb_spec, FloatAxioms.mul_spec.
  change (Prim2SF 0) with (S754_zero false). apply SFmul_not_negative.
Qed.

(** ** The generator as a map on states *)

Lemma next_seed_mod (s : Z) : next_seed s = (s * 1103515245 + 12345) mod 2 ^ 31.
Proof. apply lcg_state. Qed.

Lemma simple_random_seed (g : Rng) :
  rand_seed (simple_random g).2 = next_seed (rand_seed g).
Proof. reflexivity. Qed.

Lemma prev_next_seed (s : Z) : 0 <= s < 2 ^ 31 -> prev_seed (next_seed s) = s.
Proof.
  intros Hs. rewrite next_seed_mod. unfold prev_seed.
  rewrite (Z.mod_eq (s * 1103515245 + 12345) (2 ^ 31)) by lia.
  set (q := (s * 1103515245 + 12345) / 2 ^ 31).
  change (2 ^ 31) with 2147483648 in *.
  replace ((s * 1103515245 + 12345 - 2147483648 * q - 12345) * 1857678181)
    with (s + (s * 954594553 - q * 1857678181) * 2147483648) by ring.
  rewrite Z.mod_add by lia. apply Z.mod_small. lia.
Qed.

Lemma next_prev_seed (s : Z) : 0 <= s < 2 ^ 31 -> next_seed (prev_seed s) = s.
Proof.
  intros Hs. rewrite next_seed_mod. unfold prev_seed.
  rewrite (Z.mod_eq ((s - 12345) * 1857678181) (2 ^ 31)) by lia.
  set (q := ((s - 12345) * 1857678181) / 2 ^ 31).
  change (2 ^ 31) with 2147483648 in *.
  replace (((s - 12345) * 1857678181 - 2147483648 * q) * 1103515245 + 12345)
    with (s + ((s - 12345) * 954594553 - q * 1103515245) * 2147483648) by ring.
  rewrite Z.mod_add by lia. apply Z.mod_small. lia.
Qed.

(** X1.  The state map of [simple_random] is a permutation of the 31-bit
    states: [prev_seed] undoes a draw, and a draw undoes [prev_seed].  No
    state is lost, and every state has exactly one predecessor. *)
Theorem simple_random_state_round_trip (g : Rng) :
  0 <= rand_seed g < 2 ^ 31 ->
  let back := {| rand_seed := prev_seed (rand_seed g);
                 has_spare := has_spare g; spare := spare g |} in
  prev_seed (rand_seed (simple_random g).2) = rand_seed g /\
  0 <= rand_seed back < 2 ^ 31 /\
  rand_seed (simple_random back).2 = rand_seed g.
Proof.
  intros Hs back. rewrite !simple_random_seed. cbn [rand_seed back].
  split; [by apply prev_next_seed|]. split; [|by apply next_prev_seed].
  unfold prev_seed. apply Z.mod_pos_bound. lia.
Qed.

Lemma next_seed_odd (s : Z) : Z.odd (next_seed s) = negb (Z.odd s).
Proof.
  rewrite next_seed_mod, <- !Z.bit0_odd.
  rewrite Z.mod_pow2_bits_low by lia.
  rewrite !Z.bit0_odd, Z.odd_add, Z.odd_mul.
  change (Z.odd 1103515245) with true. change (Z.odd 12345) with true.
  by destruct (Z.odd s).
Qed.

(** X2.  The lowest bit of the state alternates from one uniform draw to the
    next, whatever the state: odd and even states take turns, and no state
    is its own successor. *)
Theorem simple_random_state_parity_alternates (g : Rng) :
  Z.odd (rand_seed (simple_random g).2) = negb (Z.odd (rand_seed g)) /\
  Z.odd (rand_seed (simple_random (simple_random g).2).2) = Z.odd (rand_seed g) /\
  rand_seed (simple_random g).2 <> rand_seed g.
Proof.
  rewrite !simple_random_seed, !next_seed_odd.
  repeat split; [by destruct (Z.odd (rand_seed g))|].
  intros Heq. pose proof (next_seed_odd (rand_seed g)) as Hodd.
  rewrite Heq in Hodd. by destruct (Z.odd (rand_seed g)).
Qed.

Lemma next_seed_congruent (s s' : Z) :
  s mod 2 ^ 31 = s' mod 2 ^ 31 -> next_seed s = next_seed s'.
Proof.
  intros Hs. rewrite !next_seed_mod.
  rewrite <- (Zplus_mod_idemp_l (s * 1103515245)), <- (Zmult_mod_idemp_l s).
  rewrite Hs. by rewrite Zmult_mod_idemp_l, Zplus_mod_idemp_l.
Qed.

(** X3.  Only the low 31 bits of the state count: two states that differ
    by a multiple of [2^31] give the same uniform draw and the same next
    state.  So two runs initialised at times that differ by a multiple of
    [2^31] take the same draws. *)
Theorem seed_high_bits_ignored (g : Rng) (now k : Z) :
  simple_random {| rand_seed := rand_seed g + k * 2 ^ 31;
                   has_spare := has_spare g; spare := spare g |}
  = simple_random g /\
  simple_random (reseed (now + k * 2 ^ 31) g) = simple_random (reseed now g).
Proof.
  assert (Hstep : forall g1 g2 : Rng,
            rand_seed g1 mod 2 ^ 31 = rand_seed g2 mod 2 ^ 31 ->
            has_spare g1 = has_spare g2 -> spare g1 = spare g2 ->
            simple_random g1 = simple_random g2).
  { intros g1 g2 Hs Hh Hsp. unfold simple_random.
    fold (next_seed (rand_seed g1)). fold (next_seed (rand_seed g2)).
    by rewrite (next_seed_congruent _ _ Hs), Hh, Hsp. }
  split; apply Hstep; try done; cbn [rand_seed reseed].
  - apply Z.mod_add. lia.
  - unfold wrap_ulong, ULONG_BITS.
    rewrite !(Z.mod_mod_divide _ (2 ^ 32) (2 ^ 31)) by (exists 2; reflexivity).
    apply Z.mod_add. lia.
Qed.

(** ** Uniform draws strictly between zero and one *)

(** Rounding a mantissa in [[2^52, 2^53 - 2]] at an exponent of [-53] or
    less gives a value strictly between zero and one. *)
Lemma binary_round_aux_lt_one (q e : Z) (l : location) :
  2 ^ 52 <= q <= 2 ^ 53 - 2 -> -1074 <= e <= -53 ->
  SFltb (binary_round_aux prec emax false q e l) SF_one = true /\
  SFltb (S754_zero false) (binary_round_aux prec emax false q e l) = true.
Proof.
  intros Hq He. unfold binary_round_aux.
  rewrite shr_fexp_53 by lia.
  rewrite shr_record_of_loc_m, loc_of_shr_record_of_loc.
  pose proof (round_nearest_even_bounds q l) as Hr.
  rewrite shr_fexp_53 by lia. cbn [shr_record_of_loc shr_m].
  destruct (round_nearest_even q l) as [|p|p]; [lia| |lia].
  replace (e <=? emax - prec) with true
    by (symmetry; apply Z.leb_le; unfold emax, prec; lia).
  unfold SFltb, SF_one, SFcompare.
  destruct (Z.compare_spec e (-52)) as [| |]; [lia | by split | lia].
Qed.

Lemma SFdiv_by_modulus_strict (mx : positive) (ex : Z) :
  2 ^ 52 <= Z.pos mx <= 2 ^ 53 - 2 ^ 23 -> -52 <= ex <= -22 ->
  SFltb (SFdiv prec emax (S754_finite false mx ex) SF_modulus) SF_one = true /\
  SFltb (S754_zero false) (SFdiv prec emax (S754_finite false mx ex) SF_modulus) = true.
Proof.
  intros Hmx Hex. unfold SFdiv, SF_modulus, SFdiv_core_binary.
  cbn [Zdigits2]. rewrite (digits2_pos_unique mx 53) by lia.
  change (Z.pos (digits2_pos 9007199250546688)) with 53.
  replace (Z.min (fexp prec emax (53 + ex - (53 + -22))) (ex - -22)) with (ex - 31)
    by (unfold fexp, SpecFloat.emin, prec, emax; lia).
  replace (ex - -22 - (ex - 31)) with 53 by lia.
  rewrite Z.shiftl_mul_pow2 by lia.
  pose proof (Z_div_mod (Z.pos mx * 2 ^ 53) 9007199250546688 eq_refl) as Hdiv.
  destruct (Z.div_eucl (Z.pos mx * 2 ^ 53) 9007199250546688) as [q rem].
  cbn [xorb]. apply binary_round_aux_lt_one; lia.
Qed.

Lemma uniform_quotient_open (n : Z) :
  0 < n < 2147483647 ->
  (0 <? double_of_ulong n / 0x7fffffff)%float = true /\
  (double_of_ulong n / 0x7fffffff <? 1)%float = true.
Proof.
  intros Hn. rewrite !FloatAxioms.ltb_spec, FloatAxioms.div_spec.
  unfold double_of_ulong. rewrite of_uint63_spec, Uint63.of_Z_spec.
  rewrite Z.mod_small by (change wB with (2 ^ 63); lia).
  change (Prim2SF 0x7fffffff) with SF_modulus.
  change (Prim2SF 1) with SF_one. change (Prim2SF 0) with (S754_zero false).
  unfold SF64div.
  destruct n as [|p|p]; [lia | | lia].
  destruct (binary_normalize_31 p) as (mx & ex & -> & Hmx & Hex); [lia|].
  pose proof (SFdiv_by_modulus_strict mx ex Hmx Hex) as [H1 H0]. by split.
Qed.

(** X4.  The value [simple_random] returns is exactly [0.0] when the new state
    is [0], exactly [1.0] when the new state is [2^31 - 1], and strictly
    between the two for every other state. *)
Theorem simple_random_endpoints (g : Rng) :
  let u := (simple_random g).1 in
  let s := rand_seed (simple_random g).2 in
  (s = 0 -> u = 0%float) /\
  (s = 2 ^ 31 - 1 -> u = 1%float) /\
  ((0 <? u)%float = true <-> s <> 0) /\
  ((u <? 1)%float = true <-> s <> 2 ^ 31 - 1).
Proof.
  intros u s.
  assert (Hu : u = (double_of_ulong s / 0x7fffffff)%float) by reflexivity.
  assert (Hs : 0 <= s < 2 ^ 31).
  { unfold s. rewrite simple_random_seed, next_seed_mod. apply Z.mod_pos_bound. lia. }
  clearbody u s. subst u. change (2 ^ 31) with 2147483648 in *.
  destruct (Z.eq_dec s 0) as [->|H0]; [by vm_compute|].
  destruct (Z.eq_dec s 2147483647) as [->|H1]; [by vm_compute|].
  destruct (uniform_quotient_open s) as [Hlo Hhi]; [lia|].
  rewrite Hlo, Hhi. repeat split; try done; lia.
Qed.

(** ** Normal draws and the uniform draws behind them *)

Section NormalDrawFacts.
Context `{Libm}.

(** X5.  With no spare pending, two calls of [normal_random] come from one pair
    [(u, v)] of uniform draws: the first returns
    [sqrt(-2 log u) sin(2 pi v)] and keeps [sqrt(-2 log u) cos(2 pi v)],
    the second returns what was kept and takes no uniform draw.  The state
    has moved by two steps and no spare is pending afterwards. *)
Theorem normal_random_pair (g : Rng) :
  has_spare g = false ->
  let u := (simple_random g).1 in
  let v := (simple_random (simple_random g).2).1 in
  let mag := sqrt (-2.0 * log u)%float in
  let first := normal_random g in
  let second := normal_random first.2 in
  first.1 = (mag * sin (2.0 * M_PI * v))%float /\
  second.1 = (mag * cos (2.0 * M_PI * v))%float /\
  has_spare first.2 = true /\
  has_spare second.2 = false /\
  rand_seed first.2 = next_seed (next_seed (rand_seed g)) /\
  rand_seed second.2 = rand_seed first.2.
Proof.
  destruct g as [seed sp x]. cbn [has_spare]. intros ->. by repeat split.
Qed.

Lemma step_draws_seed (g : Rng) :
  has_spare g = false ->
  rand_seed (step_draws normal_random g).2 = next_seed (next_seed (rand_seed g)).
Proof. destruct g as [seed sp x]. cbn [has_spare]. by intros ->. Qed.

Lemma source_after_seed (k : nat) (g : Rng) :
  has_spare g = false ->
  rand_seed (source_after normal_random k g) = Nat.iter (2 * k) next_seed (rand_seed g).
Proof.
  revert g. induction k as [|k IH]; intros g Hg; [done|].
  cbn [source_after]. rewrite IH by (by rewrite step_draws_has_spare).
  rewrite step_draws_seed by done.
  replace (2 * S k)%nat with (2 * k + 2)%nat by lia.
  by rewrite Nat.iter_add.
Qed.

Lemma simulate_single_path_seed (S0 v0 r theta kappa xi rho T : float) (N : Z) (g : Rng) :
  has_spare g = false ->
  rand_seed (simulate_single_path normal_random S0 v0 r theta kappa xi rho T N g).2
  = Nat.iter (2 * Z.to_nat N) next_seed (rand_seed g).
Proof.
  intros Hg. unfold simulate_single_path.
  pose proof (single_path_state_source normal_random S0 v0 r theta kappa xi rho T N
                (Z.to_nat N) g) as Hsrc.
  destruct (single_path_state _ _ _ _ _ _ _ _ _ _ _ _) as [[Sa va] g'].
  cbn [snd] in *. subst g'. by apply source_after_seed.
Qed.

Lemma simulate_final_price_seed (S0 v0 r theta kappa xi rho T : float) (N : Z) (g : Rng) :
  has_spare g = false ->
  rand_seed (simulate_final_price normal_random S0 v0 r theta kappa xi rho T N g).2
  = Nat.iter (2 * Z.to_nat N) next_seed (rand_seed g).
Proof.
  intros Hg. unfold simulate_final_price.
  pose proof (final_price_state_source normal_random S0 v0 r theta kappa xi rho T N
                (Z.to_nat N) g) as Hsrc.
  destruct (final_price_state _ _ _ _ _ _ _ _ _ _ _ _) as [[s v] g'].
  cbn [snd] in *. subst g'. by apply source_after_seed.
Qed.

(** X6.  With no spare pending and [N >= 0], either simulator makes exactly
    [2 N] uniform draws for [N] steps: the state of the generator moves
    [2 N] steps forward, and no spare is pending afterwards. *)
Theorem path_simulation_draw_count (S0 v0 r theta kappa xi rho T : float) (N : Z) (g : Rng) :
  has_spare g = false -> 0 <= N ->
  let after_path := (simulate_single_path normal_random S0 v0 r theta kappa xi rho T N g).2 in
  let after_final := (simulate_final_price normal_random S0 v0 r theta kappa xi rho T N g).2 in
  rand_seed after_path = Nat.iter (2 * Z.to_nat N) next_seed (rand_seed g) /\
  rand_seed after_final = Nat.iter (2 * Z.to_nat N) next_seed (rand_seed g) /\
  has_spare after_path = false /\ has_spare after_final = false.
Proof.
  intros Hg _ after_path after_final.
  split; [by apply simulate_single_path_seed|].
  split; [by apply simulate_final_price_seed|].
  split; [unfold after_path; by rewrite simulate_single_path_has_spare|].
  unfold after_final; by rewrite simulate_final_price_has_spare.
Qed.

End NormalDrawFacts.

(** ** A start price that is not a number *)

Lemma is_nan_true (x : float) : is_nan x = true <-> Prim2SF x = S754_nan.
Proof.
  split.
  - intros Hx. destruct (Prim2SF x) as [s|s| |s m e] eqn:E; try done;
      assert (is_nan x = false) by (apply is_nan_false; by rewrite E); congruence.
  - intros Hx. destruct (is_nan x) eqn:E; [done|]. by apply is_nan_false in E.
Qed.

Lemma mul_nan_l (x y : float) : is_nan x = true -> is_nan (x * y) = true.
Proof. rewrite !is_nan_true, FloatAxioms.mul_spec. by intros ->. Qed.

Section NanStartPrice.
Context `{Libm} {G : Type} (next_normal : G -> float * G).
Variables (S0 v0 r theta kappa xi rho T : float) (N : Z).

Lemma final_price_step_nan (dt : float) (st : float * float * G) :
  is_nan st.1.1 = true ->
  is_nan (final_price_step next_normal r theta kappa xi rho dt st).1.1 = true.
Proof.
  destruct st as [[s v] g]. cbn [fst]. intros Hs. unfold final_price_step.
  destruct (next_normal g) as [zs g1]. destruct (next_normal g1) as [zn g2].
  cbn [fst]. by apply mul_nan_l.
Qed.

Lemma final_price_state_nan (k : nat) (g : G) :
  is_nan S0 = true ->
  is_nan (final_price_state next_normal S0 v0 r theta kappa xi rho T N k g).1.1 = true.
Proof.
  intros HS0. induction k as [|k IH]; [done|].
  rewrite final_price_state_succ. by apply final_price_step_nan.
Qed.

(** X7.  A NaN start price spreads to the whole trajectory, whatever the other
    parameters, the draws and the results of [exp]: every cell of the array
    [simulate_single_path] returns is NaN, and so is the price
    [simulate_final_price] returns. *)
Theorem nan_start_price_propagates (g : G) :
  is_nan S0 = true -> 0 <= N ->
  (forall j : nat, (j <= Z.to_nat N)%nat ->
     exists x : float,
       (simulate_single_path next_normal S0 v0 r theta kappa xi rho T N g).1 !! j = Some x /\
       is_nan x = true) /\
  is_nan (simulate_final_price next_normal S0 v0 r theta kappa xi rho T N g).1 = true.
Proof.
  intros HS0 HN. split.
  - intros j Hj. unfold simulate_single_path.
    destruct (arrays_trajectory next_normal S0 v0 r theta kappa xi rho T N (Z.to_nat N) g HN)
      as (_ & _ & _ & Hcells); [lia|].
    destruct (Hcells j Hj) as [Hcell _].
    destruct (single_path_state _ _ _ _ _ _ _ _ _ _ _ _) as [[Sa va] ga].
    cbn [fst] in *. eexists. split; [exact Hcell|]. by apply final_price_state_nan.
  - unfold simulate_final_price.
    pose proof (final_price_state_nan (Z.to_nat N) g HS0) as Hnan.
    by destruct (final_price_state _ _ _ _ _ _ _ _ _ _ _ _) as [[s v] gs].
Qed.

End NanStartPrice.

(** ** Prices are never negative *)

Section PriceSign.
Context `{Libm} {G : Type} (next_normal : G -> float * G).
Variables (S0 v0 r theta kappa xi rho T : float) (N : Z).

(** What [math.h] gives: [exp] never returns a value below zero. *)
Hypothesis exp_not_negative : forall x : float, (exp x <? 0)%float = false.

Lemma final_price_step_sign (dt : float) (st : float * float * G) :
  (st.1.1 <? 0)%float = false ->
  ((final_price_step next_normal r theta kappa xi rho dt st).1.1 <? 0)%float = false.
Proof.
  destruct st as [[s v] g]. cbn [fst]. intros Hs. unfold final_price_step.
  destruct (next_normal g) as [zs g1]. destruct (next_normal g1) as [zn g2].
  cbn [fst]. by apply mul_not_negative.
Qed.

Lemma final_price_state_sign (k : nat) (g : G) :
  (S0 <? 0)%float = false ->
  ((final_price_state next_normal S0 v0 r theta kappa xi rho T N k g).1.1 <? 0)%float = false.
Proof.
  intros HS0. induction k as [|k IH]; [done|].
  rewrite final_price_state_succ. by apply final_price_step_sign.
Qed.

(** X8.  With an [exp] that never returns a value below zero, a start
    price that is not below zero gives prices that are not below zero: no
    cell of the array [simulate_single_path] returns is negative, nor is
    the price [simulate_final_price] returns, whatever the variance does
    and whatever the draws are. *)
Theorem prices_never_negative (g : G) :
  (S0 <? 0)%float = false -> 0 <= N ->
  (forall j : nat, (j <= Z.to_nat N)%nat ->
     exists x : float,
       (simulate_single_path next_normal S0 v0 r theta kappa xi rho T N g).1 !! j = Some x /\
       (x <? 0)%float = false) /\
  ((simulate_final_price next_normal S0 v0 r theta kappa xi rho T N g).1 <? 0)%float = false.
Proof.
  intros HS0 HN. split.
  - intros j Hj. unfold simulate_single_path.
    destruct (arrays_trajectory next_normal S0 v0 r theta kappa xi rho T N (Z.to_nat N) g HN)
      as (_ & _ & _ & Hcells); [lia|].
    destruct (Hcells j Hj) as [Hcell _].
    destruct (single_path_state _ _ _ _ _ _ _ _ _ _ _ _) as [[Sa va] ga].
    cbn [fst] in *. eexists. split; [exact Hcell|]. by apply final_price_state_sign.
  - unfold simulate_final_price.
    pose proof (final_price_state_sign (Z.to_nat N) g HS0) as Hsign.
    by destruct (final_price_state _ _ _ _ _ _ _ _ _ _ _ _) as [[s v] gs].
Qed.

End PriceSign.

(** ** The reference price for parameters outside the model *)

Lemma sqrt_negative (x : float) : (x <? 0)%float = true -> is_nan (sqrt x) = true.
Proof.
  rewrite FloatAxioms.ltb_spec, is_nan_true, sqrt_spec.
  change (Prim2SF 0) with (S754_zero false).
  by destruct (Prim2SF x) as [[]|[]| |[] m e].
Qed.

Lemma sqrt_nan (x : float) : is_nan x = true -> is_nan (sqrt x) = true.
Proof. rewrite !is_nan_true, sqrt_spec. by intros ->. Qed.

Lemma mul_nan_r' (x y : float) : is_nan y = true -> is_nan (x * y) = true.
Proof.
  rewrite !is_nan_true, FloatAxioms.mul_spec. intros ->. by destruct (Prim2SF x).
Qed.

Lemma div_nan_l (x y : float) : is_nan x = true -> is_nan (x / y) = true.
Proof. rewrite !is_nan_true, FloatAxioms.div_spec. by intros ->. Qed.

Lemma div_nan_r (x y : float) : is_nan y = true -> is_nan (x / y) = true.
Proof.
  rewrite !is_nan_true, FloatAxioms.div_spec. intros ->. by destruct (Prim2SF x).
Qed.

Lemma add_nan_r (x y : float) : is_nan y = true -> is_nan (x + y) = true.
Proof.
  rewrite !is_nan_true, FloatAxioms.add_spec. intros ->. by destruct (Prim2SF x).
Qed.

Lemma sub_nan_l (x y : float) : is_nan x = true -> is_nan (x - y) = true.
Proof. rewrite !is_nan_true, FloatAxioms.sub_spec. by intros ->. Qed.

Section ReferencePriceFacts.
Context `{Libm}.

(** What C asks of [erf]: a NaN argument gives a NaN. *)
Hypothesis erf_nan : forall x : float, is_nan x = true -> is_nan (erf x) = true.

Lemma norm_cdf_nan (x : float) : is_nan x = true -> is_nan (norm_cdf x) = true.
Proof.
  intros Hx. unfold norm_cdf. by apply mul_nan_r', add_nan_r, erf_nan, div_nan_l.
Qed.

Lemma black_scholes_call_nan (S0 K r T sigma : float) :
  is_nan (sigma * sqrt T) = true -> is_nan (black_scholes_call S0 K r T sigma) = true.
Proof.
  intros Hs. unfold black_scholes_call.
  by apply sub_nan_l, mul_nan_r', norm_cdf_nan, div_nan_r.
Qed.

(** X9.  With an [erf] that maps NaN to NaN, an initial variance below zero or
    a maturity below zero makes the Black-Scholes reference price NaN:
    [initialize_simulation] takes the square root of either, and the NaN
    goes through [d1] into the price, whatever the other parameters and
    whatever [log] and [exp] return. *)
Theorem reference_price_nan_outside_model (now : Z)
    (S0 v0 r theta kappa xi rho T K : float) (N : Z) (w : World) :
  (v0 <? 0)%float = true \/ (T <? 0)%float = true ->
  is_nan (get_black_scholes_price
            (initialize_simulation now S0 v0 r theta kappa xi rho T K N w)) = true.
Proof.
  intros Hcase. unfold get_black_scholes_price.
  cbn [sim_state initialize_simulation black_scholes_price].
  apply black_scholes_call_nan. destruct Hcase as [Hv|HT].
  - by apply mul_nan_l, sqrt_negative.
  - by apply mul_nan_r', sqrt_negative.
Qed.

End ReferencePriceFacts.

(** ** The comparison function *)

(** X10.  [compare_paths] returns -1, 0 or 1 and is antisymmetric: swapping the
    arguments negates the result, for every pair of prices.  An entry whose
    final price is NaN compares equal to every entry. *)
Theorem compare_paths_antisymmetric (a b : PricePath) :
  compare_paths a b = - compare_paths b a /\
  compare_paths a b ∈ [-1; 0; 1] /\
  (is_nan (final_price a) = true -> compare_paths a b = 0 /\ compare_paths b a = 0).
Proof.
  unfold compare_paths.
  destruct (final_price a <? final_price b)%float eqn:Hab,
           (final_price b <? final_price a)%float eqn:Hba.
  - apply ltb_leb, leb_not_ltb in Hab. congruence.
  - apply ltb_true in Hab as (Ha & _). rewrite !elem_of_cons.
    repeat split; [auto | congruence | congruence].
  - apply ltb_true in Hba as (_ & Ha & _). rewrite !elem_of_cons.
    repeat split; [auto | congruence | congruence].
  - rewrite !elem_of_cons. repeat split; auto.
Qed.

(** ** The first and the last cell of a simulated path *)

Lemma simulate_single_path_ends `{Libm} {G : Type} (next_normal : G -> float * G)
    (S0 v0 r theta kappa xi rho T : float) (N : Z) (g : G) :
  0 <= N ->
  let full := simulate_single_path next_normal S0 v0 r theta kappa xi rho T N g in
  let fast := simulate_final_price next_normal S0 v0 r theta kappa xi rho T N g in
  full.1 !! 0%nat = Some S0 /\ full.1 !! Z.to_nat N = Some fast.1 /\ full.2 = fast.2.
Proof.
  intros HN full fast. unfold full, fast, simulate_single_path, simulate_final_price.
  destruct (arrays_trajectory next_normal S0 v0 r theta kappa xi rho T N (Z.to_nat N) g HN)
    as (_ & _ & Hg & Hcells); [lia|].
  destruct (Hcells 0%nat) as [H0 _]; [lia|].
  destruct (Hcells (Z.to_nat N)) as [HS _]; [lia|].
  destruct (single_path_state _ _ _ _ _ _ _ _ _ _ _ _) as [[Sa va] ga].
  destruct (final_price_state _ _ _ _ _ _ _ _ _ _ (Z.to_nat N) _) as [[s v] gs].
  cbn [fst snd] in *. done.
Qed.

(** ** More on the simulation driver *)

Section DriverMore.
Context `{Libm}.
Variable qsort : list PricePath -> (PricePath -> PricePath -> Z) -> list PricePath.
Hypothesis qsort_permutes : forall l cmp, Permutation (qsort l cmp) l.
Hypothesis qsort_sorts : forall l cmp,
  consistent_on cmp l -> StronglySorted (fun a b => cmp a b <= 0) (qsort l cmp).

Local Abbreviation iteration := (batch_iteration qsort).
Local Abbreviation iterations := (for_loop (fun _ : nat => batch_iteration qsort) 0).

Lemma running_reachable (w : World) : running qsort w -> reachable qsort w.
Proof.
  induction 1 as [w now a0 a1 a2 a3 a4 a5 a6 a7 a8 n0 Hw HN|w n _ IH Hmax].
  - by apply reach_initialize.
  - by apply reach_batch.
Qed.

(** *** What a batch only reads *)

Lemma store_path_configuration (p : list float) (s : SimulationState) :
  configuration (store_path p s) = configuration s /\
  total_payoffs (store_path p s) = total_payoffs s.
Proof. unfold store_path. by destruct (paths_stored s <? MAX_PERCENTILE_PATHS). Qed.

Lemma exit_tracking_configuration (s : SimulationState) :
  configuration (exit_tracking qsort s) = configuration s /\
  total_payoffs (exit_tracking qsort s) = total_payoffs s /\
  simulation_count (exit_tracking qsort s) = simulation_count s.
Proof.
  unfold exit_tracking. by destruct (simulation_count s >=? PERCENTILE_TRACKING_LIMIT - 1).
Qed.

Lemma batch_iteration_configuration (w : World) :
  configuration (sim_state (iteration w)) = configuration (sim_state w).
Proof.
  unfold batch_iteration.
  destruct (negb (tracking_phase (sim_state w) =? 0) && _).
  - destruct (simulate_single_path _ _ _ _ _ _ _ _ _ _ _) as [p g]. cbn [sim_state].
    change (configuration (count_simulation ?s)) with (configuration s).
    rewrite (proj1 (exit_tracking_configuration _)).
    change (configuration (add_payoff ?x ?s)) with (configuration s).
    apply store_path_configuration.
  - by destruct (simulate_final_price _ _ _ _ _ _ _ _ _ _ _) as [x g].
Qed.

Lemma iterations_configuration (k : nat) (w : World) :
  configuration (sim_state (iterations k w)) = configuration (sim_state w).
Proof.
  induction k as [|k IH]; [done|].
  by rewrite for_loop_snoc, batch_iteration_configuration.
Qed.

Lemma run_simulation_batch_configuration (n : Z) (w : World) :
  configuration (sim_state (run_simulation_batch qsort n w)) = configuration (sim_state w).
Proof. unfold run_simulation_batch. cbn [sim_state]. apply iterations_configuration. Qed.

(** X11.  A batch run from a reachable state leaves the model parameters, the
    number of time steps and the Black-Scholes reference price as
    [initialize_simulation] set them: [get_time_steps] and
    [get_black_scholes_price] return the same values before and after. *)
Theorem batch_keeps_configuration (n : Z) (w : World) :
  reachable qsort w ->
  simulation_count (sim_state w) + Z.max 0 n <= INT_MAX ->
  let w' := run_simulation_batch qsort n w in
  configuration (sim_state w') = configuration (sim_state w) /\
  get_time_steps w' = get_time_steps w /\
  get_black_scholes_price w' = get_black_scholes_price w.
Proof.
  intros _ _ w'. pose proof (run_simulation_batch_configuration n w) as Hc.
  split; [exact Hc|]. unfold configuration in Hc.
  unfold get_time_steps, get_black_scholes_price. by injection Hc.
Qed.

(** *** The sum of payoffs *)

Lemma batch_iteration_payoffs (w : World) :
  nonneg (total_payoffs (sim_state w)) -> nonneg (total_payoffs (sim_state (iteration w))).
Proof.
  intros Hw. unfold batch_iteration.
  destruct (negb (tracking_phase (sim_state w) =? 0) && _).
  - destruct (simulate_single_path _ _ _ _ _ _ _ _ _ _ _) as [p g]. cbn [sim_state].
    change (total_payoffs (count_simulation ?s)) with (total_payoffs s).
    rewrite (proj1 (proj2 (exit_tracking_configuration _))).
    cbn [total_payoffs add_payoff].
    rewrite (proj2 (store_path_configuration _ _)).
    apply add_nonneg; [done | apply fmax_zero_cases].
  - destruct (simulate_final_price _ _ _ _ _ _ _ _ _ _ _) as [x g].
    cbn [sim_state total_payoffs count_simulation add_payoff].
    apply add_nonneg; [done | apply fmax_zero_cases].
Qed.

Lemma iterations_payoffs (k : nat) (w : World) :
  nonneg (total_payoffs (sim_state w)) -> nonneg (total_payoffs (sim_state (iterations k w))).
Proof.
  intros Hw. induction k as [|k IH]; [done|].
  rewrite for_loop_snoc. by apply batch_iteration_payoffs.
Qed.

Lemma reachable_payoffs (w : World) :
  reachable qsort w -> nonneg (total_payoffs (sim_state w)).
Proof.
  induction 1 as [|w now a0 a1 a2 a3 a4 a5 a6 a7 a8 n0 _ IH _|w n _ IH _]; [done|done|].
  unfold run_simulation_batch. cbn [sim_state total_payoffs update_option_price].
  by apply iterations_payoffs.
Qed.

(** X12.  In every reachable state the sum of payoffs is a number that is not
    below zero: it is never NaN and never negative, whatever the
    parameters and whatever [math.h] returns, even when simulated prices
    are NaN or infinite. *)
Theorem total_payoffs_never_negative (w : World) :
  reachable qsort w ->
  is_nan (total_payoffs (sim_state w)) = false /\
  (0 <=? total_payoffs (sim_state w))%float = true.
Proof.
  intros Hw. pose proof (reachable_payoffs w Hw) as Hp.
  split; [by apply nonneg_not_nan | exact Hp].
Qed.

(** *** Uniform draws per batch *)

Lemma batch_iteration_seed (w : World) :
  has_spare (rng w) = false ->
  rand_seed (rng (iteration w))
  = Nat.iter (2 * Z.to_nat (N (sim_state w))) next_seed (rand_seed (rng w)).
Proof.
  intros Hsp. unfold batch_iteration.
  destruct (negb (tracking_phase (sim_state w) =? 0) && _).
  - pose proof (simulate_single_path_seed (S0 (sim_state w)) (v0 (sim_state w))
      (r (sim_state w)) (theta (sim_state w)) (kappa (sim_state w)) (xi (sim_state w))
      (rho (sim_state w)) (T (sim_state w)) (N (sim_state w)) (rng w) Hsp) as Hseed.
    by destruct (simulate_single_path _ _ _ _ _ _ _ _ _ _ _) as [p g].
  - pose proof (simulate_final_price_seed (S0 (sim_state w)) (v0 (sim_state w))
      (r (sim_state w)) (theta (sim_state w)) (kappa (sim_state w)) (xi (sim_state w))
      (rho (sim_state w)) (T (sim_state w)) (N (sim_state w)) (rng w) Hsp) as Hseed.
    by destruct (simulate_final_price _ _ _ _ _ _ _ _ _ _ _) as [x g].
Qed.

Lemma configuration_N (s s' : SimulationState) :
  configuration s = configuration s' -> N s = N s'.
Proof. unfold configuration. by intros [= _ _ _ _ _ _ _ _ _ -> _]. Qed.

Lemma iterations_seed (k : nat) (w : World) :
  has_spare (rng w) = false ->
  rand_seed (rng (iterations k w))
  = Nat.iter (2 * Z.to_nat (N (sim_state w)) * k) next_seed (rand_seed (rng w)).
Proof.
  intros Hsp. induction k as [|k IH].
  - by rewrite Nat.mul_0_r.
  - rewrite for_loop_snoc, batch_iteration_seed by (by rewrite iterations_has_spare).
    cbn [Nat.add]. rewrite IH, (configuration_N _ _ (iterations_configuration k w)).
    rewrite <- Nat.iter_add. f_equal. lia.
Qed.

(** X13.  A batch of [n] simulations run from a reachable state makes exactly
    [2 N n] uniform draws, [N] being the number of time steps: the state of
    the generator moves [2 N n] steps forward, and no spare normal draw is
    pending afterwards. *)
Theorem batch_draw_count (n : Z) (w : World) :
  reachable qsort w ->
  simulation_count (sim_state w) + Z.max 0 n <= INT_MAX ->
  let w' := run_simulation_batch qsort n w in
  rand_seed (rng w')
  = Nat.iter (2 * Z.to_nat (get_time_steps w) * Z.to_nat n) next_seed (rand_seed (rng w)) /\
  has_spare (rng w') = false.
Proof.
  intros Hw _ w'. pose proof (reachable_no_spare qsort w Hw) as Hsp.
  unfold w', run_simulation_batch. cbn [rng].
  split; [by apply iterations_seed | by rewrite (iterations_has_spare qsort)].
Qed.

(** *** The stored cohort *)

Lemma batch_iteration_stored (w : World) :
  phase_inv (sim_state w) -> simulation_count (sim_state w) < INT_MAX ->
  paths_stored (sim_state w) = Z.min (simulation_count (sim_state w)) MAX_PERCENTILE_PATHS ->
  paths_stored (sim_state (iteration w))
  = Z.min (simulation_count (sim_state w) + 1) MAX_PERCENTILE_PATHS.
Proof.
  intros Hphase Hmax HM. unfold batch_iteration.
  unfold phase_inv, PERCENTILE_TRACKING_LIMIT, MAX_PERCENTILE_PATHS in *.
  destruct (negb (tracking_phase (sim_state w) =? 0) && _) eqn:Hcond.
  - apply andb_true_iff in Hcond as [Htr Hlt]. apply Z.ltb_lt in Hlt.
    destruct (simulate_single_path _ _ _ _ _ _ _ _ _ _ _) as [p g]. cbn [sim_state].
    unfold exit_tracking, store_path, MAX_PERCENTILE_PATHS.
    replace (paths_stored (sim_state w) <? 1000) with true by (symmetry; apply Z.ltb_lt; lia).
    cbn [simulation_count add_payoff].
    destruct (simulation_count (sim_state w) >=? PERCENTILE_TRACKING_LIMIT - 1);
      cbn [paths_stored count_simulation add_payoff]; lia.
  - destruct (simulate_final_price _ _ _ _ _ _ _ _ _ _ _) as [x g].
    cbn [sim_state paths_stored count_simulation add_payoff].
    apply andb_false_iff in Hcond as [Htr|Hlt].
    + apply negb_false_iff, Z.eqb_eq in Htr. lia.
    + apply Z.ltb_ge in Hlt. lia.
Qed.

Lemma iterations_stored (k : nat) (w : World) :
  phase_inv (sim_state w) -> simulation_count (sim_state w) + Z.of_nat k <= INT_MAX ->
  paths_stored (sim_state w) = Z.min (simulation_count (sim_state w)) MAX_PERCENTILE_PATHS ->
  paths_stored (sim_state (iterations k w))
  = Z.min (simulation_count (sim_state w) + Z.of_nat k) MAX_PERCENTILE_PATHS.
Proof.
  intros Hphase Hmax HM. induction k as [|k IH].
  - by rewrite Z.add_0_r.
  - destruct (iterations_phase qsort k w Hphase) as [Hp Hc]; [lia|].
    rewrite for_loop_snoc. cbn [Nat.add].
    rewrite batch_iteration_stored; [rewrite Hc; f_equal; lia | done | lia |].
    rewrite Hc. apply IH. lia.
Qed.

Lemma running_stored (w : World) :
  running qsort w ->
  paths_stored (sim_state w) = Z.min (simulation_count (sim_state w)) MAX_PERCENTILE_PATHS.
Proof.
  induction 1 as [w now a0 a1 a2 a3 a4 a5 a6 a7 a8 n0 _ _|w n Hw IH Hmax]; [done|].
  pose proof (running_phase qsort w Hw) as Hphase.
  destruct (run_simulation_batch_phase qsort n w Hphase Hmax) as [_ ->].
  unfold run_simulation_batch. cbn [sim_state paths_stored update_option_price].
  rewrite iterations_stored by (done || lia). f_equal. lia.
Qed.

(** X14.  In a run the number of stored paths is the simulation count, capped at
    1000.  Below 1000 simulations the run is tracking; from 1000 on it is
    not, exactly 1000 paths are stored, and the five percentile indices are
    0, 250, 500, 750 and 999. *)
Theorem tracked_cohort_size (w : World) :
  running qsort w ->
  let s := sim_state w in
  paths_stored s = Z.min (get_simulation_count w) 1000 /\
  (get_simulation_count w < 1000 -> is_tracking_phase w = 1) /\
  (1000 <= get_simulation_count w ->
   is_tracking_phase w = 0 /\ paths_stored s = 1000 /\
   (min_idx s, p25_idx s, p50_idx s, p75_idx s, max_idx s) = (0, 250, 500, 750, 999)).
Proof.
  intros Hrun s. subst s.
  pose proof (running_stored w Hrun) as HM.
  pose proof (running_phase qsort w Hrun) as Hphase.
  pose proof (reachable_inv qsort qsort_permutes w (running_reachable w Hrun))
    as (_ & _ & _ & _ & _ & Hok).
  unfold phase_inv, PERCENTILE_TRACKING_LIMIT, MAX_PERCENTILE_PATHS in *.
  unfold get_simulation_count, is_tracking_phase.
  split; [done|]. split; [lia|]. intros Hc.
  assert (Htr : tracking_phase (sim_state w) = 0) by lia.
  assert (HM' : paths_stored (sim_state w) = 1000) by lia.
  destruct (Hok Htr) as (-> & -> & -> & -> & ->); [lia|].
  rewrite HM'. done.
Qed.

(** Every stored path starts at [S0]. *)

Lemma store_path_starts (p : list float) (x : float) (s : SimulationState) :
  state_inv s -> tracking_phase s <> 0 ->
  Forall (starts_at x) (stored_paths s) -> p !! 0%nat = Some x ->
  Forall (starts_at x) (stored_paths (store_path p s)).
Proof.
  intros (HN & HM & Hlen & Hle & _ & _) Htr Hst Hp.
  unfold store_path. destruct (paths_stored s <? MAX_PERCENTILE_PATHS) eqn:Hcap; [|done].
  apply Z.ltb_lt in Hcap. specialize (Hlen Htr).
  unfold MAX_PERCENTILE_PATHS, stored_paths in *. cbn [paths_stored all_paths].
  replace (Z.to_nat (paths_stored s + 1)) with (S (Z.to_nat (paths_stored s))) by lia.
  rewrite (take_S_r _ _ {| path := Some p; final_price := p !!! Z.to_nat (N s) |})
    by (apply list_lookup_insert_eq; lia).
  rewrite take_insert_ge by lia.
  apply Forall_app. split; [done|]. constructor; [|constructor]. by exists p.
Qed.

Lemma exit_tracking_starts (x : float) (s : SimulationState) :
  (Z.to_nat (paths_stored s) <= length (all_paths s))%nat ->
  Forall (starts_at x) (stored_paths s) ->
  Forall (starts_at x) (stored_paths (exit_tracking qsort s)).
Proof.
  intros Hle Hst.
  destruct (simulation_count s >=? PERCENTILE_TRACKING_LIMIT - 1) eqn:Hc.
  2: { unfold exit_tracking. by rewrite Hc. }
  destruct (exit_tracking_stored qsort qsort_permutes s Hle Hc) as [-> _].
  by rewrite (qsort_permutes _ _).
Qed.

Lemma configuration_S0 (s s' : SimulationState) :
  configuration s = configuration s' -> S0 s = S0 s'.
Proof. unfold configuration. by intros [= -> _ _ _ _ _ _ _ _ _ _]. Qed.

Lemma batch_iteration_starts (w : World) :
  state_inv (sim_state w) ->
  Forall (starts_at (S0 (sim_state w))) (stored_paths (sim_state w)) ->
  Forall (starts_at (S0 (sim_state w))) (stored_paths (sim_state (iteration w))).
Proof.
  intros Hinv Hst. unfold batch_iteration.
  destruct (negb (tracking_phase (sim_state w) =? 0) && _) eqn:Hcond.
  - apply andb_true_iff in Hcond as [Htr _].
    apply negb_true_iff, Z.eqb_neq in Htr.
    destruct (tracking_branch_path (sim_state w) (rng w) Hinv) as (Hlen & x & Hlast).
    pose proof Hinv as (HN & _).
    destruct (simulate_single_path_ends normal_random (S0 (sim_state w)) (v0 (sim_state w))
      (r (sim_state w)) (theta (sim_state w)) (kappa (sim_state w)) (xi (sim_state w))
      (rho (sim_state w)) (T (sim_state w)) (N (sim_state w)) (rng w)) as (Hfirst & _);
      [lia|].
    destruct (simulate_single_path _ _ _ _ _ _ _ _ _ _ _) as [p g].
    cbn [fst] in Hlen, Hlast, Hfirst. cbn [sim_state].
    destruct (store_path_inv p _ (sim_state w) Hinv Htr Hlen Hlast)
      as [(_ & _ & _ & Hle & _ & _) _].
    change (stored_paths (count_simulation ?s)) with (stored_paths s).
    apply exit_tracking_starts; [exact Hle|].
    change (stored_paths (add_payoff ?y ?s)) with (stored_paths s).
    by apply store_path_starts.
  - by destruct (simulate_final_price _ _ _ _ _ _ _ _ _ _ _) as [x g].
Qed.

Lemma iterations_starts (k : nat) (w : World) :
  state_inv (sim_state w) ->
  Forall (starts_at (S0 (sim_state w))) (stored_paths (sim_state w)) ->
  Forall (starts_at (S0 (sim_state w))) (stored_paths (sim_state (iterations k w))).
Proof.
  intros Hinv Hst. induction k as [|k IH]; [done|].
  rewrite for_loop_snoc.
  rewrite <- (configuration_S0 _ _ (iterations_configuration k w)).
  apply batch_iteration_starts; [by apply (iterations_inv qsort qsort_permutes)|].
  by rewrite (configuration_S0 _ _ (iterations_configuration k w)).
Qed.

Lemma reachable_starts (w : World) :
  reachable qsort w -> Forall (starts_at (S0 (sim_state w))) (stored_paths (sim_state w)).
Proof.
  induction 1 as [|w now a0 a1 a2 a3 a4 a5 a6 a7 a8 n0 _ IH HN|w n Hw IH _].
  - constructor.
  - constructor.
  - unfold run_simulation_batch. cbn [sim_state].
    change (stored_paths (update_option_price ?s)) with (stored_paths s).
    change (S0 (update_option_price ?s)) with (S0 s).
    rewrite (configuration_S0 _ _ (iterations_configuration (Z.to_nat n) w)).
    apply iterations_starts; [by apply (reachable_inv qsort qsort_permutes) | done].
Qed.

(** X15.  In every reachable state there are exactly [paths_stored] stored
    entries, and each points to a trajectory of [N + 1] prices that starts
    at [S0] and whose last price is the final price cached beside it. *)
Theorem stored_paths_shape (w : World) :
  reachable qsort w ->
  let s := sim_state w in
  length (stored_paths s) = Z.to_nat (paths_stored s) /\
  forall e : PricePath, e ∈ stored_paths s ->
    exists t : list float,
      path e = Some t /\
      length t = Z.to_nat (N s + 1) /\
      t !! 0%nat = Some (S0 s) /\
      t !! Z.to_nat (N s) = Some (final_price e).
Proof.
  intros Hw s. subst s.
  pose proof (reachable_inv qsort qsort_permutes w Hw) as (_ & _ & _ & Hle & Hok & _).
  pose proof (reachable_starts w Hw) as Hst.
  split; [unfold stored_paths; rewrite length_take; lia|].
  intros e He. rewrite Forall_forall in Hok, Hst.
  destruct (Hok e He) as (t & Ht & Hlen & Hlast).
  destruct (Hst e He) as (t' & Ht' & Hfirst).
  exists t. repeat split; try done. congruence.
Qed.

(** *** The percentile accessor over a run *)

(** X16.  In a run [get_percentile_path] is decided by the simulation count
    alone.  Below 1000 simulations it returns [NULL] for every argument.
    From 1000 simulations on it returns, for each of 0, 25, 50, 75 and 100,
    a stored trajectory of [N + 1] prices that starts at [S0]; for any other
    argument it returns [NULL].  It never changes the state. *)
Theorem percentile_paths_by_count (w : World) (percentile : Z) :
  running qsort w ->
  (get_simulation_count w < 1000 ->
   get_percentile_path percentile w = (Value None, w)) /\
  (1000 <= get_simulation_count w -> percentile ∈ [0; 25; 50; 75; 100] ->
   exists t : list float,
     get_percentile_path percentile w = (Value (Some t), w) /\
     length t = Z.to_nat (get_time_steps w + 1) /\
     t !! 0%nat = Some (S0 (sim_state w))) /\
  (percentile ∉ [0; 25; 50; 75; 100] ->
   get_percentile_path percentile w = (Value None, w)).
Proof.
  intros Hrun.
  pose proof (running_reachable w Hrun) as Hreach.
  pose proof (running_stored w Hrun) as HM.
  pose proof (running_phase qsort w Hrun) as Hphase.
  pose proof (reachable_inv qsort qsort_permutes w Hreach) as Hinv.
  pose proof (reachable_starts w Hreach) as Hst.
  unfold phase_inv, PERCENTILE_TRACKING_LIMIT, MAX_PERCENTILE_PATHS in *.
  unfold get_simulation_count, get_time_steps.
  split; [|split].
  - intros Hc. unfold get_percentile_path.
    replace (tracking_phase (sim_state w) =? 0) with false; [done|].
    symmetry. apply Z.eqb_neq. lia.
  - intros Hc Hp.
    assert (Htr : tracking_phase (sim_state w) = 0) by lia.
    assert (HM' : 0 < paths_stored (sim_state w)) by lia.
    destruct (percentile_index percentile (sim_state w)) as [idx|] eqn:Hidx.
    2: { apply percentile_index_None in Hidx. done. }
    pose proof (percentile_index_range _ _ _ Hinv Htr HM' Hidx) as Hrange.
    destruct (stored_lookup _ idx Hinv Hrange) as (e & He & Hs & t & Ht & Hlen & _).
    rewrite Forall_forall in Hst.
    destruct (Hst e) as (t' & Ht' & Hfirst); [by eapply list_elem_of_lookup_2|].
    assert (t' = t) as -> by congruence.
    exists t. split; [|done].
    unfold get_percentile_path. rewrite Htr, Hidx.
    replace (paths_stored (sim_state w) >? 0) with true by (symmetry; apply Z.gtb_lt; lia).
    cbn [Z.eqb andb]. by rewrite (array_read_lookup _ _ e), Ht by (lia || done).
  - intros Hp. unfold get_percentile_path.
    apply (percentile_index_None _ (sim_state w)) in Hp. rewrite Hp.
    by destruct (_ && _).
Qed.

(** X17.  Once the tracking phase is over, and provided no stored final price is
    NaN, the path at the minimum index has the smallest and the path at
    the maximum index the largest final price of the stored cohort. *)
Theorem extreme_paths_bound_cohort (w : World) :
  reachable qsort w ->
  is_tracking_phase w = 0 ->
  0 < paths_stored (sim_state w) ->
  no_nan_terminal (stored_paths (sim_state w)) ->
  let s := sim_state w in
  exists lowest highest : PricePath,
    all_paths s !! Z.to_nat (min_idx s) = Some lowest /\
    all_paths s !! Z.to_nat (max_idx s) = Some highest /\
    forall e : PricePath, e ∈ stored_paths s ->
      (final_price lowest <=? final_price e)%float = true /\
      (final_price e <=? final_price highest)%float = true.
Proof.
  intros Hreach Htr HM Hnan s. subst s.
  pose proof (reachable_inv qsort qsort_permutes w Hreach) as Hinv.
  pose proof (reachable_sorted qsort qsort_permutes qsort_sorts w Hreach Htr HM Hnan)
    as Hsorted.
  pose proof Hinv as (_ & _ & _ & Hle & _ & Hok).
  destruct (Hok Htr HM) as (H0 & _ & _ & _ & H100).
  destruct (stored_lookup _ (min_idx (sim_state w)) Hinv) as (lo & Halo & Hslo & _); [lia|].
  destruct (stored_lookup _ (max_idx (sim_state w)) Hinv) as (hi & Hahi & Hshi & _); [lia|].
  exists lo, hi. do 2 (split; [done|]).
  intros e He. apply list_elem_of_lookup_1 in He as [j Hj].
  assert (Hjlt : (j < Z.to_nat (paths_stored (sim_state w)))%nat).
  { apply lookup_lt_Some in Hj. unfold stored_paths in Hj.
    rewrite length_take in Hj. lia. }
  split.
  - apply (sorted_le_lookup _ (Z.to_nat (min_idx (sim_state w))) j lo e Hsorted Hnan);
      [lia | done | done].
  - apply (sorted_le_lookup _ j (Z.to_nat (max_idx (sim_state w))) e hi Hsorted Hnan);
      [lia | done | done].
Qed.

(** *** After the tracking phase *)

Lemma batch_iteration_fast_view (w : World) :
  tracking_phase (sim_state w) = 0 ->
  percentile_view (sim_state (iteration w)) = percentile_view (sim_state w).
Proof.
  intros Htr. unfold batch_iteration. rewrite Htr. cbn [Z.eqb negb andb].
  by destruct (simulate_final_price _ _ _ _ _ _ _ _ _ _ _) as [x g].
Qed.

Lemma percentile_view_tracking (s s' : SimulationState) :
  percentile_view s = percentile_view s' -> tracking_phase s = tracking_phase s'.
Proof. unfold percentile_view. by intros [= -> _ _ _ _ _ _ _]. Qed.

Lemma iterations_fast_view (k : nat) (w : World) :
  tracking_phase (sim_state w) = 0 ->
  percentile_view (sim_state (iterations k w)) = percentile_view (sim_state w).
Proof.
  intros Htr. induction k as [|k IH]; [done|].
  rewrite for_loop_snoc, batch_iteration_fast_view; [done|].
  by rewrite (percentile_view_tracking _ _ IH).
Qed.

Lemma get_percentile_path_view (percentile : Z) (w w' : World) :
  percentile_view (sim_state w) = percentile_view (sim_state w') ->
  (get_percentile_path percentile w).1 = (get_percentile_path percentile w').1.
Proof.
  unfold percentile_view. intros [= Htr Hall HM H0 H25 H50 H75 H100].
  unfold get_percentile_path, percentile_index.
  rewrite Htr, Hall, HM, H0, H25, H50, H75, H100.
  destruct (_ && _); [|done].
  by repeat case_percentile.
Qed.

(** X18.  Percentile paths are frozen once the tracking phase is over: a later
    batch changes neither the stored entries, nor their number, nor the
    five indices, so [get_percentile_path] returns after it what it
    returned before, for every argument. *)
Theorem percentile_paths_frozen (n percentile : Z) (w : World) :
  reachable qsort w ->
  simulation_count (sim_state w) + Z.max 0 n <= INT_MAX ->
  is_tracking_phase w = 0 ->
  let w' := run_simulation_batch qsort n w in
  is_tracking_phase w' = 0 /\
  all_paths (sim_state w') = all_paths (sim_state w) /\
  paths_stored (sim_state w') = paths_stored (sim_state w) /\
  (get_percentile_path percentile w').1 = (get_percentile_path percentile w).1.
Proof.
  intros _ _ Htr w'.
  assert (Hview : percentile_view (sim_state w') = percentile_view (sim_state w)).
  { unfold w', run_simulation_batch. cbn [sim_state].
    change (percentile_view (update_option_price ?s)) with (percentile_view s).
    by apply iterations_fast_view. }
  split; [|split; [|split]].
  - unfold is_tracking_phase in *. by rewrite (percentile_view_tracking _ _ Hview).
  - unfold percentile_view in Hview. by injection Hview.
  - unfold percentile_view in Hview. by injection Hview.
  - by apply get_percentile_path_view.
Qed.

(** *** Tracking does not change the price *)

Lemma fast_iteration_view (w w' : World) :
  pricing_view w = pricing_view w' ->
  pricing_view (fast_iteration w) = pricing_view (fast_iteration w').
Proof.
  unfold pricing_view, configuration.
  intros [= HS0 Hv0 Hr Hth Hka Hxi Hrho HT HK HN Hbs Hc Htot Hg].
  unfold fast_iteration. rewrite HS0, Hv0, Hr, Hth, Hka, Hxi, Hrho, HT, HK, HN, Hg.
  destruct (simulate_final_price _ _ _ _ _ _ _ _ _ _ _) as [x g].
  cbn [sim_state rng S0 v0 r theta kappa xi rho T K N black_scholes_price
       simulation_count total_payoffs count_simulation add_payoff].
  by rewrite HS0, Hv0, Hr, Hth, Hka, Hxi, Hrho, HT, HK, HN, Hbs, Hc, Htot.
Qed.

Lemma configuration_K (s s' : SimulationState) :
  configuration s = configuration s' -> K s = K s'.
Proof. unfold configuration. by intros [= _ _ _ _ _ _ _ _ -> _ _]. Qed.

Lemma batch_iteration_view (w : World) :
  0 <= N (sim_state w) ->
  pricing_view (iteration w) = pricing_view (fast_iteration w).
Proof.
  intros HN. unfold batch_iteration, fast_iteration.
  destruct (negb (tracking_phase (sim_state w) =? 0) && _); [|done].
  destruct (simulate_single_path_ends normal_random (S0 (sim_state w)) (v0 (sim_state w))
    (r (sim_state w)) (theta (sim_state w)) (kappa (sim_state w)) (xi (sim_state w))
    (rho (sim_state w)) (T (sim_state w)) (N (sim_state w)) (rng w) HN)
    as (_ & Hlast & Hsrc).
  destruct (simulate_single_path _ _ _ _ _ _ _ _ _ _ _) as [p g].
  destruct (simulate_final_price _ _ _ _ _ _ _ _ _ _ _) as [x g'].
  cbn [fst snd] in Hlast, Hsrc. subst g'.
  destruct (store_path_configuration p (sim_state w)) as [Hconf Htot].
  destruct (store_path_fields p (sim_state w)) as [Hcount _].
  unfold pricing_view. cbn [sim_state rng].
  change (configuration (count_simulation ?s)) with (configuration s).
  rewrite (proj1 (exit_tracking_configuration _)).
  change (configuration (add_payoff ?y ?s)) with (configuration s).
  cbn [simulation_count total_payoffs count_simulation].
  rewrite (proj1 (proj2 (exit_tracking_configuration _))).
  rewrite (proj2 (proj2 (exit_tracking_configuration _))).
  cbn [simulation_count total_payoffs add_payoff].
  rewrite Hconf, Htot, Hcount.
  rewrite (configuration_N _ _ Hconf), (configuration_K _ _ Hconf).
  by rewrite (list_lookup_total_correct _ _ _ Hlast).
Qed.

Lemma iterations_view (k : nat) (w : World) :
  0 <= N (sim_state w) ->
  pricing_view (iterations k w) = pricing_view (for_loop (fun _ => fast_iteration) 0 k w).
Proof.
  intros HN. induction k as [|k IH]; [done|].
  rewrite !for_loop_snoc. rewrite batch_iteration_view.
  - by apply fast_iteration_view.
  - by rewrite (configuration_N _ _ (iterations_configuration k w)).
Qed.

(** X19.  The tracking phase has no effect on prices.  A batch run from a
    reachable state leaves the same simulation count, the same sum of
    payoffs, the same random source and the same option price as the same
    batch with every simulation done by [simulate_final_price]. *)
Theorem tracking_does_not_change_price (n : Z) (w : World) :
  reachable qsort w ->
  simulation_count (sim_state w) + Z.max 0 n <= INT_MAX ->
  let tracked := run_simulation_batch qsort n w in
  let fast := run_fast_batch n w in
  get_simulation_count tracked = get_simulation_count fast /\
  total_payoffs (sim_state tracked) = total_payoffs (sim_state fast) /\
  rng tracked = rng fast /\
  get_option_price tracked = get_option_price fast.
Proof.
  intros Hw _ tracked fast.
  pose proof (reachable_inv qsort qsort_permutes w Hw) as (HN & _).
  pose proof (iterations_view (Z.to_nat n) w (proj1 HN)) as Hview.
  unfold pricing_view, configuration in Hview.
  injection Hview as HS0 Hv0 Hr Hth Hka Hxi Hrho HT HK HN' Hbs Hc Htot Hg.
  unfold tracked, fast, run_simulation_batch, run_fast_batch,
    get_simulation_count, get_option_price.
  cbn [sim_state rng simulation_count total_payoffs current_option_price update_option_price].
  by rewrite Hr, HT, Hc, Htot, Hg.
Qed.

(** *** Before the first initialisation *)

Lemma batch_iteration_uninitialised (w : World) :
  uninitialised w ->
  uninitialised (iteration w) /\
  simulation_count (sim_state (iteration w)) = wrap_int (simulation_count (sim_state w) + 1).
Proof.
  destruct w as [s g]. unfold uninitialised, configuration, percentile_view.
  cbn [sim_state rng].
  intros (-> & Hconf & Hview & Htot).
  injection Hconf as HS0 Hv0 Hr Hth Hka Hxi Hrho HT HK HN Hbs.
  injection Hview as Htr Hall HM H0 H25 H50 H75 H100.
  unfold batch_iteration. cbn [sim_state rng].
  rewrite Htr. cbn [tracking_phase initial_world sim_state Z.eqb negb andb].
  rewrite HS0, Hv0, Hr, Hth, Hka, Hxi, Hrho, HT, HK, HN.
  cbn [sim_state rng S0 v0 r theta kappa xi rho T K N black_scholes_price
       simulation_count total_payoffs count_simulation add_payoff initial_world
       tracking_phase all_paths paths_stored min_idx p25_idx p50_idx p75_idx max_idx].
  unfold simulate_final_price, final_price_state.
  change (Z.to_nat 0) with 0%nat. cbn [for_loop].
  cbn [sim_state rng S0 v0 r theta kappa xi rho T K N black_scholes_price
       simulation_count total_payoffs count_simulation add_payoff initial_world
       tracking_phase all_paths paths_stored min_idx p25_idx p50_idx p75_idx max_idx].
  rewrite Htot, Hbs, Htr, Hall, HM, H0, H25, H50, H75, H100.
  rewrite HS0, Hv0, Hr, Hth, Hka, Hxi, Hrho, HT, HK, HN.
  repeat split.
Qed.

Lemma iterations_uninitialised (k : nat) (w : World) :
  uninitialised w ->
  0 <= simulation_count (sim_state w) ->
  simulation_count (sim_state w) + Z.of_nat k <= INT_MAX ->
  uninitialised (iterations k w) /\
  simulation_count (sim_state (iterations k w)) = simulation_count (sim_state w) + Z.of_nat k.
Proof.
  intros Hw H0. induction k as [|k IH]; intros Hmax.
  - split; [done | simpl; lia].
  - destruct IH as [IH1 IH2]; [lia|]. rewrite for_loop_snoc. cbn [Nat.add].
    destruct (batch_iteration_uninitialised _ IH1) as [H1 H2].
    split; [done|]. rewrite H2, IH2, wrap_int_small by (unfold INT_MAX in *; lia). lia.
Qed.

Lemma uninitialised_update (s : SimulationState) (g : Rng) :
  uninitialised {| sim_state := s; rng := g |} ->
  uninitialised {| sim_state := update_option_price s; rng := g |}.
Proof. done. Qed.

Lemma run_batches_uninitialised (sizes : list Z) (w : World) :
  uninitialised w ->
  0 <= simulation_count (sim_state w) ->
  simulation_count (sim_state w) + simulations_of sizes <= INT_MAX ->
  uninitialised (run_batches qsort sizes w) /\
  simulation_count (sim_state (run_batches qsort sizes w))
  = simulation_count (sim_state w) + simulations_of sizes.
Proof.
  revert w. induction sizes as [|n sizes IH]; intros w Hw H0 Hmax.
  - split; [done | simpl; lia].
  - cbn [simulations_of foldr] in *. fold (simulations_of sizes) in *.
    assert (Hsum : 0 <= simulations_of sizes).
    { clear. induction sizes as [|m sizes IH]; simpl; lia. }
    destruct (iterations_uninitialised (Z.to_nat n) w Hw H0) as [H1 H2]; [lia|].
    change (run_batches qsort (n :: sizes) w)
      with (run_batches qsort sizes (run_simulation_batch qsort n w)).
    destruct (IH (run_simulation_batch qsort n w)) as [H3 H4].
    + unfold run_simulation_batch. apply uninitialised_update.
      by destruct (iterations (Z.to_nat n) w).
    + unfold run_simulation_batch. cbn [sim_state simulation_count update_option_price]. lia.
    + unfold run_simulation_batch. cbn [sim_state simulation_count update_option_price]. lia.
    + split; [done|]. rewrite H4. unfold run_simulation_batch.
      cbn [sim_state simulation_count update_option_price]. lia.
Qed.

(** X20.  Batches run before any [initialize_simulation] are harmless.  Whatever
    their sizes, as long as the counter stays an [int], they count their
    simulations and do nothing else: the run is not tracking, no path is
    stored and the path table is never allocated, the sum of payoffs stays
    [0.0], no random draw is taken, and [get_percentile_path] returns
    [NULL] for every argument. *)
Theorem batches_before_initialize (sizes : list Z) (percentile : Z) :
  simulations_of sizes <= INT_MAX ->
  let w := run_batches qsort sizes initial_world in
  get_simulation_count w = simulations_of sizes /\
  is_tracking_phase w = 0 /\
  all_paths (sim_state w) = [] /\
  paths_stored (sim_state w) = 0 /\
  total_payoffs (sim_state w) = 0%float /\
  rng w = rng initial_world /\
  get_percentile_path percentile w = (Value None, w).
Proof.
  intros Hmax w.
  destruct (run_batches_uninitialised sizes initial_world) as [Hun Hcount];
    [done | done | simpl; lia |].
  fold w in Hun, Hcount. destruct Hun as (Hrng & _ & Hview & Htot).
  unfold percentile_view in Hview.
  injection Hview as Htr Hall HM _ _ _ _ _.
  unfold get_simulation_count, is_tracking_phase, get_percentile_path.
  rewrite Htr, HM. repeat split; done.
Qed.

(** *** The option price *)

(** X21.  The option price of a run is never negative.  Provided the value
    [exp] returns for the discount factor is not negative, [get_option_price]
    is not below zero, whatever the parameters and the simulated prices; it
    can be NaN (the comparison with zero then fails as well). *)
Theorem option_price_never_negative (w : World) :
  running qsort w ->
  (exp (- r (sim_state w) * T (sim_state w)) <? 0)%float = false ->
  (get_option_price w <? 0)%float = false.
Proof.
  intros Hrun. unfold get_option_price.
  destruct Hrun as [w now a0 a1 a2 a3 a4 a5 a6 a7 a8 n0 Hw HN|w n Hrun Hmax]; [done|].
  unfold run_simulation_batch.
  cbn [sim_state r T current_option_price update_option_price].
  set (s := sim_state (iterations (Z.to_nat n) w)).
  intros Hexp.
  assert (Htot : nonneg (total_payoffs s)).
  { apply iterations_payoffs, reachable_payoffs. by apply running_reachable. }
  assert (Hcount : 0 <= simulation_count s).
  { destruct (iterations_phase qsort (Z.to_nat n) w (running_phase qsort w Hrun))
      as [_ Hc]; [lia|].
    fold s in Hc. rewrite Hc.
    pose proof (running_phase qsort w Hrun) as Hphase.
    unfold phase_inv, PERCENTILE_TRACKING_LIMIT in Hphase. lia. }
  revert Hexp. unfold nonneg in Htot. revert Htot.
  rewrite !FloatAxioms.ltb_spec, FloatAxioms.leb_spec, FloatAxioms.mul_spec,
    FloatAxioms.div_spec.
  change (Prim2SF 0) with (S754_zero false).
  intros Htot Hexp. apply SFmul_not_negative; [exact Hexp|].
  apply SFdiv_not_negative; [exact Htot | by apply double_of_int_unsigned].
Qed.

(** *** Splitting a batch *)

Lemma batch_iteration_price (p : float) (s : SimulationState) (g : Rng) :
  iteration {| sim_state := set_option_price p s; rng := g |}
  = {| sim_state := set_option_price p (sim_state (iteration {| sim_state := s; rng := g |}));
       rng := rng (iteration {| sim_state := s; rng := g |}) |}.
Proof.
  unfold batch_iteration.
  cbn [sim_state rng set_option_price S0 v0 r theta kappa xi rho T K N
       simulation_count tracking_phase].
  destruct (negb (tracking_phase s =? 0) && _).
  - destruct (simulate_single_path _ _ _ _ _ _ _ _ _ _ _) as [t g']. cbn [sim_state rng].
    unfold store_path. cbn [paths_stored set_option_price].
    destruct (paths_stored s <? MAX_PERCENTILE_PATHS);
      unfold exit_tracking; cbn [simulation_count add_payoff set_option_price];
      by destruct (simulation_count s >=? PERCENTILE_TRACKING_LIMIT - 1).
  - by destruct (simulate_final_price _ _ _ _ _ _ _ _ _ _ _) as [x g'].
Qed.

Lemma iterations_price (k : nat) (p : float) (s : SimulationState) (g : Rng) :
  iterations k {| sim_state := set_option_price p s; rng := g |}
  = {| sim_state := set_option_price p (sim_state (iterations k {| sim_state := s; rng := g |}));
       rng := rng (iterations k {| sim_state := s; rng := g |}) |}.
Proof.
  induction k as [|k IH]; [done|].
  rewrite !for_loop_snoc, IH, batch_iteration_price.
  by destruct (iterations k {| sim_state := s; rng := g |}).
Qed.

Lemma for_loop_index {A : Type} (f : A -> A) (b i j : nat) (x : A) :
  for_loop (fun _ => f) i b x = for_loop (fun _ => f) j b x.
Proof. revert i j x. induction b as [|b IH]; intros i j x; [done|]. simpl. apply IH. Qed.

Lemma for_loop_add {A : Type} (f : A -> A) (a b i j : nat) (x : A) :
  for_loop (fun _ => f) i (a + b) x = for_loop (fun _ => f) j b (for_loop (fun _ => f) i a x).
Proof.
  revert i x. induction a as [|a IH]; intros i x.
  - simpl. apply for_loop_index.
  - simpl. apply IH.
Qed.

(** X22.  The state after a run does not depend on how its simulations are
    split into batches: a batch of [a] simulations followed by a batch of
    [b] leaves exactly the state one batch of [a + b] leaves, option price
    included. *)
Theorem batches_compose (a b : Z) (w : World) :
  reachable qsort w ->
  0 <= a -> 0 <= b ->
  simulation_count (sim_state w) + (a + b) <= INT_MAX ->
  run_simulation_batch qsort b (run_simulation_batch qsort a w)
  = run_simulation_batch qsort (a + b) w.
Proof.
  intros _ Ha Hb _. unfold run_simulation_batch.
  replace (Z.to_nat (a + b)) with (Z.to_nat a + Z.to_nat b)%nat by lia.
  rewrite (for_loop_add _ _ _ 0%nat 0%nat).
  set (wa := iterations (Z.to_nat a) w).
  change (update_option_price (sim_state wa))
    with (set_option_price
            (exp (- r (sim_state wa) * T (sim_state wa)) *
             (total_payoffs (sim_state wa) / double_of_int (simulation_count (sim_state wa))))
            (sim_state wa)).
  rewrite iterations_price. cbn [sim_state rng].
  by destruct wa as [sa ga].
Qed.

End DriverMore.

(** ** The further properties at concrete inputs *)

Lemma example_start_reachable : @reachable SeriesLibm.libm insertion_sort example_start.
Proof. apply reach_initialize; [apply reach_start | by vm_compute]. Qed.

Lemma example_run_running : @running SeriesLibm.libm insertion_sort example_run.
Proof. apply run_batch; [exact example_start_running | by vm_compute]. Qed.

(** The reference [erf] maps NaN to NaN. *)
Lemma power_series_nan (n : nat) (ratio weight : float -> float) (k term acc : float) :
  is_nan acc = true -> is_nan (SeriesLibm.power_series ratio weight n k term acc) = true.
Proof.
  revert k term acc. induction n as [|n IH]; intros k term acc Hacc; [done|].
  simpl. apply IH. rewrite is_nan_true in *. by rewrite FloatAxioms.add_spec, Hacc.
Qed.

Lemma series_erf_nan (x : float) : is_nan x = true -> is_nan (SeriesLibm.erf x) = true.
Proof. intros Hx. unfold SeriesLibm.erf. by apply mul_nan_r', power_series_nan. Qed.

Lemma forallb_no_nan (l : list PricePath) :
  forallb (fun e => negb (is_nan (final_price e))) l = true -> no_nan_terminal l.
Proof.
  unfold no_nan_terminal. induction l as [|e l IH]; [constructor|].
  cbn [forallb]. intros [He Hl]%andb_true_iff.
  constructor; [by apply negb_true_iff in He | by apply IH].
Qed.

Lemma example_run_no_nan : no_nan_terminal (stored_paths (sim_state example_run)).
Proof. apply forallb_no_nan. by vm_compute. Qed.

Lemma simple_random_state_round_trip_witness :
  0 <= 42 < 2 ^ 31 /\
  prev_seed (rand_seed (simple_random {| rand_seed := 42; has_spare := false; spare := 0 |}).2)
  = 42.
Proof.
  assert (Hs : 0 <= 42 < 2 ^ 31) by (by vm_compute).
  split; [exact Hs|].
  exact (proj1 (simple_random_state_round_trip
                  {| rand_seed := 42; has_spare := false; spare := 0 |} Hs)).
Defined.

Lemma normal_random_pair_witness :
  has_spare (rng example_start) = false /\
  has_spare (@normal_random SeriesLibm.libm
               (@normal_random SeriesLibm.libm (rng example_start)).2).2 = false.
Proof.
  assert (Hsp : has_spare (rng example_start) = false) by (by vm_compute).
  split; [exact Hsp|].
  destruct (@normal_random_pair SeriesLibm.libm (rng example_start) Hsp)
    as (_ & _ & _ & H4 & _).
  exact H4.
Defined.

Lemma path_simulation_draw_count_witness :
  has_spare (rng example_start) = false /\ 0 <= 4 /\
  rand_seed (@simulate_final_price SeriesLibm.libm _ (@normal_random SeriesLibm.libm)
               100 0.25 0 0.25 1 0.5 0 1 4 (rng example_start)).2
  = Nat.iter (2 * Z.to_nat 4) next_seed (rand_seed (rng example_start)).
Proof.
  assert (Hsp : has_spare (rng example_start) = false) by (by vm_compute).
  assert (HN : 0 <= 4) by lia.
  split; [exact Hsp|]. split; [exact HN|].
  destruct (@path_simulation_draw_count SeriesLibm.libm 100 0.25 0 0.25 1 0.5 0 1 4
              (rng example_start) Hsp HN) as (_ & H2 & _).
  exact H2.
Defined.

Lemma nan_start_price_propagates_witness :
  is_nan nan = true /\ 0 <= 2 /\
  is_nan (@simulate_final_price SeriesLibm.libm _ injected_normal
            nan 0 0 0 0 2 0 2 2 []).1 = true.
Proof.
  assert (Hnan : is_nan nan = true) by (by vm_compute).
  assert (HN : 0 <= 2) by lia.
  split; [exact Hnan|]. split; [exact HN|].
  exact (proj2 (@nan_start_price_propagates SeriesLibm.libm _ injected_normal
                  nan 0 0 0 0 2 0 2 2 [] Hnan HN)).
Defined.

Lemma batch_keeps_configuration_witness :
  @reachable SeriesLibm.libm insertion_sort example_start /\
  simulation_count (sim_state example_start) + Z.max 0 1000 <= INT_MAX /\
  get_time_steps example_run = get_time_steps example_start.
Proof.
  assert (Hmax : simulation_count (sim_state example_start) + Z.max 0 1000 <= INT_MAX)
    by (by vm_compute).
  split; [exact example_start_reachable|]. split; [exact Hmax|].
  destruct (@batch_keeps_configuration SeriesLibm.libm insertion_sort 1000 example_start
              example_start_reachable Hmax) as (_ & H2 & _).
  exact H2.
Defined.

Lemma total_payoffs_never_negative_witness :
  @reachable SeriesLibm.libm insertion_sort example_run /\
  is_nan (total_payoffs (sim_state example_run)) = false.
Proof.
  split; [exact example_run_reachable|].
  exact (proj1 (@total_payoffs_never_negative SeriesLibm.libm insertion_sort
                  example_run example_run_reachable)).
Defined.

Lemma batch_draw_count_witness :
  @reachable SeriesLibm.libm insertion_sort example_start /\
  simulation_count (sim_state example_start) + Z.max 0 1000 <= INT_MAX /\
  rand_seed (rng example_run)
  = Nat.iter (2 * Z.to_nat (get_time_steps example_start) * Z.to_nat 1000) next_seed
      (rand_seed (rng example_start)).
Proof.
  assert (Hmax : simulation_count (sim_state example_start) + Z.max 0 1000 <= INT_MAX)
    by (by vm_compute).
  split; [exact example_start_reachable|]. split; [exact Hmax|].
  destruct (@batch_draw_count SeriesLibm.libm insertion_sort 1000 example_start
              example_start_reachable Hmax) as (H1 & _).
  exact H1.
Defined.

Lemma tracked_cohort_size_witness :
  @running SeriesLibm.libm insertion_sort example_run /\
  paths_stored (sim_state example_run) = Z.min (get_simulation_count example_run) 1000.
Proof.
  split; [exact example_run_running|].
  destruct (@tracked_cohort_size SeriesLibm.libm insertion_sort
              (fun l cmp => insertion_sort_permutes l cmp)
              example_run example_run_running) as (H1 & _).
  exact H1.
Defined.

Lemma stored_paths_shape_witness :
  @reachable SeriesLibm.libm insertion_sort example_run /\
  length (stored_paths (sim_state example_run))
  = Z.to_nat (paths_stored (sim_state example_run)).
Proof.
  split; [exact example_run_reachable|].
  destruct (@stored_paths_shape SeriesLibm.libm insertion_sort
              (fun l cmp => insertion_sort_permutes l cmp)
              example_run example_run_reachable) as (H1 & _).
  exact H1.
Defined.

Lemma percentile_paths_by_count_witness :
  @running SeriesLibm.libm insertion_sort example_run /\
  exists t : list float,
    get_percentile_path 50 example_run = (Value (Some t), example_run) /\
    length t = Z.to_nat (get_time_steps example_run + 1) /\
    t !! 0%nat = Some (S0 (sim_state example_run)).
Proof.
  split; [exact example_run_running|].
  destruct (@percentile_paths_by_count SeriesLibm.libm insertion_sort
              (fun l cmp => insertion_sort_permutes l cmp)
              example_run 50 example_run_running) as (_ & H2 & _).
  apply H2.
  - by vm_compute.
  - rewrite !elem_of_cons. auto.
Defined.

Lemma extreme_paths_bound_cohort_witness :
  @reachable SeriesLibm.libm insertion_sort example_run /\
  is_tracking_phase example_run = 0 /\
  0 < paths_stored (sim_state example_run) /\
  no_nan_terminal (stored_paths (sim_state example_run)) /\
  exists lowest highest : PricePath,
    all_paths (sim_state example_run) !! Z.to_nat (min_idx (sim_state example_run))
      = Some lowest /\
    all_paths (sim_state example_run) !! Z.to_nat (max_idx (sim_state example_run))
      = Some highest /\
    forall e : PricePath, e ∈ stored_paths (sim_state example_run) ->
      (final_price lowest <=? final_price e)%float = true /\
      (final_price e <=? final_price highest)%float = true.
Proof.
  assert (Htr : is_tracking_phase example_run = 0) by (by vm_compute).
  assert (HM : 0 < paths_stored (sim_state example_run)) by (by vm_compute).
  split; [exact example_run_reachable|]. split; [exact Htr|]. split; [exact HM|].
  split; [exact example_run_no_nan|].
  exact (@extreme_paths_bound_cohort SeriesLibm.libm insertion_sort
           (fun l cmp => insertion_sort_permutes l cmp)
           (fun l cmp => insertion_sort_sorts l cmp)
           example_run example_run_reachable Htr HM example_run_no_nan).
Defined.

Lemma percentile_paths_frozen_witness :
  @reachable SeriesLibm.libm insertion_sort example_run /\
  simulation_count (sim_state example_run) + Z.max 0 10 <= INT_MAX /\
  is_tracking_phase example_run = 0 /\
  (get_percentile_path 50 (ref_run_simulation_batch 10 example_run)).1
  = (get_percentile_path 50 example_run).1.
Proof.
  assert (Hmax : simulation_count (sim_state example_run) + Z.max 0 10 <= INT_MAX)
    by (by vm_compute).
  assert (Htr : is_tracking_phase example_run = 0) by (by vm_compute).
  split; [exact example_run_reachable|]. split; [exact Hmax|]. split; [exact Htr|].
  destruct (@percentile_paths_frozen SeriesLibm.libm insertion_sort 10 50 example_run
              example_run_reachable Hmax Htr) as (_ & _ & _ & H4).
  exact H4.
Defined.

Lemma tracking_does_not_change_price_witness :
  @reachable SeriesLibm.libm insertion_sort example_start /\
  simulation_count (sim_state example_start) + Z.max 0 1000 <= INT_MAX /\
  get_option_price example_run
  = get_option_price (@run_fast_batch SeriesLibm.libm 1000 example_start).
Proof.
  assert (Hmax : simulation_count (sim_state example_start) + Z.max 0 1000 <= INT_MAX)
    by (by vm_compute).
  split; [exact example_start_reachable|]. split; [exact Hmax|].
  destruct (@tracking_does_not_change_price SeriesLibm.libm insertion_sort
              (fun l cmp => insertion_sort_permutes l cmp)
              1000 example_start example_start_reachable Hmax) as (_ & _ & _ & H4).
  exact H4.
Defined.

Lemma batches_before_initialize_witness :
  simulations_of [3; -1; 2] <= INT_MAX /\
  get_simulation_count (@run_batches SeriesLibm.libm insertion_sort [3; -1; 2] initial_world)
  = simulations_of [3; -1; 2].
Proof.
  assert (Hmax : simulations_of [3; -1; 2] <= INT_MAX) by (by vm_compute).
  split; [exact Hmax|].
  destruct (@batches_before_initialize SeriesLibm.libm insertion_sort [3; -1; 2] 50 Hmax)
    as (H1 & _).
  exact H1.
Defined.

Lemma reference_price_nan_outside_model_witness :
  (forall x : float, is_nan x = true -> is_nan (SeriesLibm.erf x) = true) /\
  ((-0.25 <? 0)%float = true \/ (1 <? 0)%float = true) /\
  is_nan (get_black_scholes_price
            (ref_initialize_simulation 42 100 (-0.25) 0 0.25 1 0.5 0 1 100 4 initial_world))
  = true.
Proof.
  assert (Hcase : (-0.25 <? 0)%float = true \/ (1 <? 0)%float = true)
    by (left; by vm_compute).
  split; [exact series_erf_nan|]. split; [exact Hcase|].
  exact (@reference_price_nan_outside_model SeriesLibm.libm series_erf_nan
           42 100 (-0.25) 0 0.25 1 0.5 0 1 100 4 initial_world Hcase).
Defined.

Lemma option_price_never_negative_witness :
  @running SeriesLibm.libm insertion_sort example_run /\
  (@exp SeriesLibm.libm (- r (sim_state example_run) * T (sim_state example_run)) <? 0)%float
  = false /\
  (get_option_price example_run <? 0)%float = false.
Proof.
  assert (Hexp : (@exp SeriesLibm.libm
                    (- r (sim_state example_run) * T (sim_state example_run)) <? 0)%float
                 = false) by (by vm_compute).
  split; [exact example_run_running|]. split; [exact Hexp|].
  exact (@option_price_never_negative SeriesLibm.libm insertion_sort example_run
           example_run_running Hexp).
Defined.

Lemma batches_compose_witness :
  @reachable SeriesLibm.libm insertion_sort example_start /\
  0 <= 300 /\ 0 <= 700 /\
  simulation_count (sim_state example_start) + (300 + 700) <= INT_MAX /\
  ref_run_simulation_batch 700 (ref_run_simulation_batch 300 example_start)
  = ref_run_simulation_batch (300 + 700) example_start.
Proof.
  assert (Ha : 0 <= 300) by lia.
  assert (Hb : 0 <= 700) by lia.
  assert (Hmax : simulation_count (sim_state example_start) + (300 + 700) <= INT_MAX)
    by (by vm_compute).
  split; [exact example_start_reachable|]. split; [exact Ha|]. split; [exact Hb|].
  split; [exact Hmax|].
  exact (@batches_compose SeriesLibm.libm insertion_sort 300 700 example_start
           example_start_reachable Ha Hb Hmax).
Defined.

Lemma clamped_exp_not_negative (x : float) : (@exp clamped_libm x <? 0)%float = false.
Proof. apply leb_not_ltb. apply (fmax_zero_cases (SeriesLibm.exp x)). Qed.

Lemma prices_never_negative_witness :
  (forall x : float, (@exp clamped_libm x <? 0)%float = false) /\
  (100 <? 0)%float = false /\ 0 <= 4 /\
  ((@simulate_final_price clamped_libm _ (@normal_random clamped_libm)
      100 0.25 0 0.25 1 0.5 0 1 4 (rng example_start)).1 <? 0)%float = false.
Proof.
  assert (HS0 : (100 <? 0)%float = false) by (by vm_compute).
  assert (HN : 0 <= 4) by lia.
  split; [exact clamped_exp_not_negative|]. split; [exact HS0|]. split; [exact HN|].
  exact (proj2 (@prices_never_negative clamped_libm _ (@normal_random clamped_libm)
                  100 0.25 0 0.25 1 0.5 0 1 4 clamped_exp_not_negative
                  (rng example_start) HS0 HN)).
Defined.
